(** * EME controller of hls.js: a shallow embedding of
      [src/controller/eme-controller.js] and the properties of its
      key-system negotiation, session creation and media-keys binding. *)

From Stdlib Require Import Ascii String.
From stdpp Require Import base list strings.

Open Scope string_scope.
Open Scope list_scope.

(** ** Data model *)

(** [const KeySystems = { WIDEVINE: 'com.widevine.alpha' }] *)
Module KeySystems.
Definition WIDEVINE : string := "com.widevine.alpha".
End KeySystems.

(** One element of [videoCapabilities]: [{ contentType: ... }]. *)
Record MediaKeySystemMediaCapability := {
  contentType : string
}.

(** A [MediaKeySystemConfiguration] dictionary.  A member that the object
    literal does not define is [None]; [videoCapabilities] is the one member
    the source always defines. *)
Record MediaKeySystemConfiguration := {
  initDataTypes : option (list string);
  label : option string;
  persistentState : option string;
  distinctiveIdentifier : option string;
  sessionTypes : option (list string);
  audioCapabilities : option (list MediaKeySystemMediaCapability);
  videoCapabilities : list MediaKeySystemMediaCapability
}.

(** The optional [drmOptions] object; the only caller leaves it undefined. *)
Definition DrmOptions := list (string * string).

(** JavaScript exceptions raised by the modelled code. *)
Inductive JsError :=
| Error (message : string)
| TypeError (message : string).

(** The outcome of evaluating a function body: a value or a thrown error. *)
Inductive Completion (A : Type) :=
| Normal (a : A)
| Throw (e : JsError).
Arguments Normal {A} a.
Arguments Throw {A} e.

(** Host objects are opaque handles. *)
Inductive HTMLMediaElement := MediaElement (id : nat).
Inductive MediaKeySystemAccess := AccessHandle (id : nat).
Inductive MediaKeys := MediaKeysHandle (id : nat).
(** Every [createSession()] call returns a new object: the session carries
    the module it was created from and the host's allocation serial. *)
Inductive MediaKeySession := SessionHandle (keys : MediaKeys) (serial : nat).

(** The object literal pushed on [this._mediaKeysList]; [null] is [None]. *)
Record MediaKeysListItem := {
  mediaKeys : option MediaKeys;
  mediaKeysSession : option MediaKeySession;
  mediaKeySystemAccess : MediaKeySystemAccess
}.

(** One quality level of the manifest-parsed payload. *)
Record Level := {
  audioCodec : string;
  videoCodec : string
}.

(** The payload of the level-switched event; the controller only logs it. *)
Inductive LevelSwitchedData := LevelSwitchedPayload (level : nat).

(** ** Key-system catalog (pure part) *)

(** The double-quote character of the template literal. *)
Definition dquote : string := String "034"%char EmptyString.

(** [`video/mp4; codecs="${codec}"`] *)
Definition videoContentType (codec : string) : string :=
  "video/mp4; codecs=" +:+ dquote +:+ codec +:+ dquote.

(** [baseConfig.videoCapabilities.push(cap)] *)
Definition push_videoCapability
    (cfg : MediaKeySystemConfiguration) (cap : MediaKeySystemMediaCapability)
    : MediaKeySystemConfiguration :=
  {| initDataTypes := initDataTypes cfg;
     label := label cfg;
     persistentState := persistentState cfg;
     distinctiveIdentifier := distinctiveIdentifier cfg;
     sessionTypes := sessionTypes cfg;
     audioCapabilities := audioCapabilities cfg;
     videoCapabilities := videoCapabilities cfg ++ [cap] |}.

Definition createWidevineMediaKeySystemConfigurations
    (audioCodecs videoCodecs : list string) (drmOptions : option DrmOptions)
    : list MediaKeySystemConfiguration :=
  let baseConfig :=
    {| initDataTypes := None;
       label := None;
       persistentState := None;
       distinctiveIdentifier := None;
       sessionTypes := None;
       audioCapabilities := None;
       videoCapabilities := [] |} in
  let baseConfig :=
    fold_left
      (fun cfg codec =>
         push_videoCapability cfg {| contentType := videoContentType codec |})
      videoCodecs baseConfig in
  [baseConfig].

(** The result is an array or [null] (JSDoc); [null] is [None].  The
    [default:] branch throws. *)
Definition getSupportedMediaKeySystemConfigurations
    (keySystem : string) (audioCodecs videoCodecs : list string)
    : Completion (option (list MediaKeySystemConfiguration)) :=
  if String.eqb keySystem KeySystems.WIDEVINE
  then Normal (Some (createWidevineMediaKeySystemConfigurations
                       audioCodecs videoCodecs None))
  else Throw (Error ("Unknown key-system: " +:+ keySystem)).

(** ** Observable effects: console output and host calls *)

Inductive JsValue :=
| VString (s : string)
| VCodecs (codecs : list string)
| VLevels (levels : list Level)
| VLevelSwitched (data : LevelSwitchedData)
| VConfigs (configs : list MediaKeySystemConfiguration)
| VAccessConfiguration (access : MediaKeySystemAccess)
| VMediaKeys (keys : MediaKeys)
| VSession (session : MediaKeySession)
| VMedia (media : HTMLMediaElement)
| VError (e : JsError).

Inductive ConsoleLevel := Log | Warn | ErrorLevel.

Inductive HostCall :=
| requestMediaKeySystemAccess
    (keySystem : string) (configs : list MediaKeySystemConfiguration)
| getConfiguration (access : MediaKeySystemAccess)
| createMediaKeys (access : MediaKeySystemAccess)
| createSession (keys : MediaKeys)
| setMediaKeys (media : HTMLMediaElement) (keys : option MediaKeys)
| addEventListener (media : HTMLMediaElement) (type : string).

Inductive Effect :=
| Console (level : ConsoleLevel) (args : list JsValue)
| Host (call : HostCall)
| Uncaught (e : JsError).

(** ** Controller state and the host around it *)

(** The fields the constructor initialises. *)
Record EMEController := {
  _mediaKeysList : list MediaKeysListItem;
  _media : option HTMLMediaElement;
  _hasSetMediaKeys : bool;
  _isMediaEncrypted : bool
}.

Inductive PromiseState := Pending | Fulfilled | Rejected.

(** The controller together with what the host holds for it.

    - [accessRequests]: one promise per [requestMediaKeySystemAccess] call;
      its [then]/[catch] closures capture [keySystem].
    - [keysRequests]: one promise per [createMediaKeys] call; its closures
      capture the list item object.  Items are only ever appended to
      [_mediaKeysList], so the position of an item in the list identifies
      the object, and the closure is modelled by that position.
    - [encryptedListeners]: one element per [addEventListener] call.
    - [sessionsCreated]: the host's allocation counter for sessions.
    - [trace]: console output and host calls, oldest first. *)
Record World := {
  eme : EMEController;
  accessRequests : list (string * PromiseState);
  keysRequests : list (nat * PromiseState);
  encryptedListeners : list HTMLMediaElement;
  sessionsCreated : nat;
  trace : list Effect
}.

Definition with_eme (f : EMEController -> EMEController) (w : World) : World :=
  {| eme := f (eme w);
     accessRequests := accessRequests w;
     keysRequests := keysRequests w;
     encryptedListeners := encryptedListeners w;
     sessionsCreated := sessionsCreated w;
     trace := trace w |}.

Definition with_accessRequests
    (f : list (string * PromiseState) -> list (string * PromiseState))
    (w : World) : World :=
  {| eme := eme w;
     accessRequests := f (accessRequests w);
     keysRequests := keysRequests w;
     encryptedListeners := encryptedListeners w;
     sessionsCreated := sessionsCreated w;
     trace := trace w |}.

Definition with_keysRequests
    (f : list (nat * PromiseState) -> list (nat * PromiseState))
    (w : World) : World :=
  {| eme := eme w;
     accessRequests := accessRequests w;
     keysRequests := f (keysRequests w);
     encryptedListeners := encryptedListeners w;
     sessionsCreated := sessionsCreated w;
     trace := trace w |}.

Definition with_encryptedListeners
    (f : list HTMLMediaElement -> list HTMLMediaElement) (w : World) : World :=
  {| eme := eme w;
     accessRequests := accessRequests w;
     keysRequests := keysRequests w;
     encryptedListeners := f (encryptedListeners w);
     sessionsCreated := sessionsCreated w;
     trace := trace w |}.

Definition with_sessionsCreated (f : nat -> nat) (w : World) : World :=
  {| eme := eme w;
     accessRequests := accessRequests w;
     keysRequests := keysRequests w;
     encryptedListeners := encryptedListeners w;
     sessionsCreated := f (sessionsCreated w);
     trace := trace w |}.

Definition with_trace (f : list Effect -> list Effect) (w : World) : World :=
  {| eme := eme w;
     accessRequests := accessRequests w;
     keysRequests := keysRequests w;
     encryptedListeners := encryptedListeners w;
     sessionsCreated := sessionsCreated w;
     trace := f (trace w) |}.

Definition set_mediaKeysList
    (f : list MediaKeysListItem -> list MediaKeysListItem)
    (c : EMEController) : EMEController :=
  {| _mediaKeysList := f (_mediaKeysList c);
     _media := _media c;
     _hasSetMediaKeys := _hasSetMediaKeys c;
     _isMediaEncrypted := _isMediaEncrypted c |}.

Definition set_media (m : option HTMLMediaElement) (c : EMEController)
    : EMEController :=
  {| _mediaKeysList := _mediaKeysList c;
     _media := m;
     _hasSetMediaKeys := _hasSetMediaKeys c;
     _isMediaEncrypted := _isMediaEncrypted c |}.

Definition set_hasSetMediaKeys (b : bool) (c : EMEController) : EMEController :=
  {| _mediaKeysList := _mediaKeysList c;
     _media := _media c;
     _hasSetMediaKeys := b;
     _isMediaEncrypted := _isMediaEncrypted c |}.

Definition set_isMediaEncrypted (b : bool) (c : EMEController) : EMEController :=
  {| _mediaKeysList := _mediaKeysList c;
     _media := _media c;
     _hasSetMediaKeys := _hasSetMediaKeys c;
     _isMediaEncrypted := b |}.

Definition set_item_mediaKeys (keys : option MediaKeys) (it : MediaKeysListItem)
    : MediaKeysListItem :=
  {| mediaKeys := keys;
     mediaKeysSession := mediaKeysSession it;
     mediaKeySystemAccess := mediaKeySystemAccess it |}.

Definition set_item_mediaKeysSession
    (s : option MediaKeySession) (it : MediaKeysListItem) : MediaKeysListItem :=
  {| mediaKeys := mediaKeys it;
     mediaKeysSession := s;
     mediaKeySystemAccess := mediaKeySystemAccess it |}.

(** ** A state-and-exception monad for method bodies *)

Definition M (A : Type) : Type := World -> Completion A * World.

Definition ret {A} (a : A) : M A := fun w => (Normal a, w).

Definition throw {A} (e : JsError) : M A := fun w => (Throw e, w).

Definition bind {A B} (m : M A) (k : A -> M B) : M B :=
  fun w =>
    match m w with
    | (Normal a, w') => k a w'
    | (Throw e, w') => (Throw e, w')
    end.

Notation "x <- m ;; k" := (bind m (fun x => k))
  (at level 100, m at next level, right associativity).
Notation "m ;;; k" := (bind m (fun _ => k))
  (at level 100, right associativity).

Definition lift {A} (c : Completion A) : M A := fun w => (c, w).

Definition emit (e : Effect) : M unit :=
  fun w => (Normal tt, with_trace (fun t => t ++ [e]) w).

Definition console (level : ConsoleLevel) (args : list JsValue) : M unit :=
  emit (Console level args).

Definition this : M EMEController := fun w => (Normal (eme w), w).

Definition assign (f : EMEController -> EMEController) : M unit :=
  fun w => (Normal tt, with_eme f w).

(** ** Host calls *)

(** [window.navigator.requestMediaKeySystemAccess(keySystem, configs)]:
    returns a pending promise; the [then]/[catch] closures registered on it
    capture [keySystem]. *)
Definition host_requestMediaKeySystemAccess
    (keySystem : string) (configs : list MediaKeySystemConfiguration) : M unit :=
  emit (Host (requestMediaKeySystemAccess keySystem configs));;;
  fun w =>
    (Normal tt, with_accessRequests (fun l => l ++ [(keySystem, Pending)]) w).

(** [mediaKeySystemAccess.createMediaKeys()]: returns a pending promise; the
    closures registered on it capture the list item at position [item]. *)
Definition host_createMediaKeys
    (access : MediaKeySystemAccess) (item : nat) : M unit :=
  emit (Host (createMediaKeys access));;;
  fun w => (Normal tt, with_keysRequests (fun l => l ++ [(item, Pending)]) w).

(** [mediaKeys.createSession()]: a new session object. *)
Definition host_createSession (keys : MediaKeys) : M MediaKeySession :=
  emit (Host (createSession keys));;;
  fun w =>
    (Normal (SessionHandle keys (sessionsCreated w)),
     with_sessionsCreated S w).

(** [media.addEventListener('encrypted', () => this._onMediaEncrypted())] *)
Definition host_addEventListener (media : HTMLMediaElement) : M unit :=
  emit (Host (addEventListener media "encrypted"));;;
  fun w => (Normal tt, with_encryptedListeners (fun l => l ++ [media]) w).

(** ** The controller's methods *)

(** The constructor: logs, then initialises the fields. *)
Definition constructor : World :=
  {| eme := {| _mediaKeysList := [];
               _media := None;
               _hasSetMediaKeys := false;
               _isMediaEncrypted := false |};
     accessRequests := [];
     keysRequests := [];
     encryptedListeners := [];
     sessionsCreated := 0;
     trace := [Console Log [VString "EME controller online"]] |}.

(** The body of [_attemptKeySystemAccess] after [mediaKeySystemConfigs] has
    been bound.  [!mediaKeySystemConfigs] holds for [null] only: an array,
    empty or not, is truthy. *)
Definition _attemptKeySystemAccess_body
    (keySystem : string)
    (mediaKeySystemConfigs : option (list MediaKeySystemConfiguration))
    : M unit :=
  match mediaKeySystemConfigs with
  | None =>
      console Warn
        [VString "Can not create config for key-system (maybe because platform is not supported):";
         VString keySystem]
  | Some configs =>
      console Log [VConfigs configs];;;
      host_requestMediaKeySystemAccess keySystem configs
  end.

Definition _attemptKeySystemAccess
    (keySystem : string) (audioCodecs videoCodecs : list string) : M unit :=
  mediaKeySystemConfigs <-
    lift (getSupportedMediaKeySystemConfigurations
            keySystem audioCodecs videoCodecs);;
  _attemptKeySystemAccess_body keySystem mediaKeySystemConfigs.

Definition _onMediaKeySystemAccessObtained
    (keySystem : string) (mediaKeySystemAccess : MediaKeySystemAccess)
    : M unit :=
  emit (Host (getConfiguration mediaKeySystemAccess));;;
  console Log [VString "Key system access obtained with config:";
               VAccessConfiguration mediaKeySystemAccess];;;
  let mediaKeysListItem :=
    {| mediaKeys := None;
       mediaKeysSession := None;
       mediaKeySystemAccess := mediaKeySystemAccess |} in
  c <- this;;
  let position := length (_mediaKeysList c) in
  assign (set_mediaKeysList (fun l => l ++ [mediaKeysListItem]));;;
  host_createMediaKeys mediaKeySystemAccess position;;;
  console Log [VString "Obtained key-system access for:"; VString keySystem].

Definition _onNewMediaKeySession (keySession : MediaKeySession) : M unit :=
  console Log [VString "New key-system session:"; VSession keySession].

(** [Array.prototype.forEach] on [this._mediaKeysList]: the callback is run
    for the positions [0 .. length-1] in order, on the item then stored
    there; an exception thrown by the callback ends the loop. *)
Fixpoint forEach_positions
    (callback : nat -> MediaKeysListItem -> M unit) (positions : list nat)
    : M unit :=
  match positions with
  | [] => ret tt
  | i :: rest =>
      c <- this;;
      match _mediaKeysList c !! i with
      | Some item => callback i item
      | None => ret tt
      end;;;
      forEach_positions callback rest
  end.

Definition mediaKeysList_forEach
    (callback : nat -> MediaKeysListItem -> M unit) : M unit :=
  c <- this;;
  forEach_positions callback (seq 0 (length (_mediaKeysList c))).

(** The callback of [_onMediaKeysCreated].  Reading [createSession] off a
    [null] [mediaKeys] throws a [TypeError]. *)
Definition _onMediaKeysCreated_callback
    (i : nat) (mediaKeysListItem : MediaKeysListItem) : M unit :=
  match mediaKeysSession mediaKeysListItem with
  | Some _ => ret tt
  | None =>
      match mediaKeys mediaKeysListItem with
      | None => throw (TypeError "Cannot read property 'createSession' of null")
      | Some keys =>
          session <- host_createSession keys;;
          assign (set_mediaKeysList
                    (alter (set_item_mediaKeysSession (Some session)) i));;;
          _onNewMediaKeySession session
      end
  end.

Definition _onMediaKeysCreated : M unit :=
  mediaKeysList_forEach _onMediaKeysCreated_callback.

Definition _attemptSetMediaKeys : M unit :=
  c <- this;;
  if negb (_hasSetMediaKeys c) then
    match _mediaKeysList c !! 0 with
    | None =>
        console ErrorLevel
          [VString "Fatal error: Media is encrypted but no key-system access has been obtained yet"]
    | Some keysListItem =>
        match _media c with
        | None => throw (TypeError "Cannot read property 'setMediaKeys' of null")
        | Some media =>
            emit (Host (setMediaKeys media (mediaKeys keysListItem)));;;
            assign (set_hasSetMediaKeys true);;;
            console Log [VString "Media keys set!"]
        end
    end
  else ret tt.

Definition _onMediaEncrypted : M unit :=
  assign (set_isMediaEncrypted true);;;
  console Log [VString "Media is encrypted!"];;;
  _attemptSetMediaKeys.

(** *** Event handlers *)

Definition onMediaAttaching : M unit :=
  console Log [VString "media attaching"].

Definition onMediaAttached (media : HTMLMediaElement) : M unit :=
  console Log [VString "media attached:"; VMedia media];;;
  assign (set_media (Some media));;;
  host_addEventListener media.

Definition onManifestParsed (levels : list Level) : M unit :=
  console Log [VString "onManifestParsed:"; VLevels levels];;;
  let audioCodecs := map audioCodec levels in
  let videoCodecs := map videoCodec levels in
  console Log [VCodecs videoCodecs];;;
  _attemptKeySystemAccess KeySystems.WIDEVINE audioCodecs videoCodecs.

Definition onLevelSwitched (data : LevelSwitchedData) : M unit :=
  console Log [VString "onLevelSwitched:"; VLevelSwitched data].

(** ** Events delivered to the controller *)

(** The notifications of the event dispatcher, the settlements of the two
    kinds of promises and the sink's ['encrypted'] DOM event.  A promise is
    named by its position in [accessRequests] or [keysRequests]. *)
Inductive Event :=
| MEDIA_ATTACHING
| MEDIA_ATTACHED (media : HTMLMediaElement)
| MANIFEST_PARSED (levels : list Level)
| LEVEL_SWITCHED (data : LevelSwitchedData)
| AccessResolved (promise : nat) (access : MediaKeySystemAccess)
| AccessRejected (promise : nat) (err : JsError)
| MediaKeysResolved (promise : nat) (keys : MediaKeys)
| MediaKeysRejected (promise : nat) (err : JsError)
| Encrypted (media : HTMLMediaElement).

(** A callback run by the host: an exception leaving it is reported, it
    does not unwind anything else. *)
Definition run_callback (m : M unit) (w : World) : World :=
  match m w with
  | (Normal _, w') => w'
  | (Throw e, w') => with_trace (fun t => t ++ [Uncaught e]) w'
  end.

(** [promise.then(onFulfilled).catch(onRejected)], promise fulfilled: an
    exception thrown by [onFulfilled] rejects the derived promise and is
    passed to [onRejected]. *)
Definition then_catch
    (onFulfilled : M unit) (onRejected : JsError -> M unit) : World -> World :=
  fun w =>
    match onFulfilled w with
    | (Normal _, w') => w'
    | (Throw e, w') => run_callback (onRejected e) w'
    end.

Definition settle {A} (i : nat) (s : PromiseState) (l : list (A * PromiseState))
    : list (A * PromiseState) :=
  alter (fun p => (p.1, s)) i l.

(** The [catch] callback of [_attemptKeySystemAccess]. *)
Definition access_onRejected (keySystem : string) (err : JsError) : M unit :=
  console ErrorLevel
    [VString ("Failed to obtain key-system " +:+ keySystem +:+ " access:");
     VError err].

(** The [then] callback of [_onMediaKeySystemAccessObtained]. *)
Definition keys_onFulfilled (item : nat) (keys : MediaKeys) : M unit :=
  assign (set_mediaKeysList (alter (set_item_mediaKeys (Some keys)) item));;;
  console Log [VString "Created media-keys:"; VMediaKeys keys];;;
  _onMediaKeysCreated.

(** The [catch] callback of [_onMediaKeySystemAccessObtained]. *)
Definition keys_onRejected (err : JsError) : M unit :=
  console ErrorLevel [VString "Failed to create media-keys:"; VError err].

(** The listeners registered for ['encrypted'] on [media], run in
    registration order. *)
Fixpoint fire_encrypted
    (media : HTMLMediaElement) (listeners : list HTMLMediaElement)
    (w : World) : World :=
  match listeners with
  | [] => w
  | MediaElement target :: rest =>
      let 'MediaElement id := media in
      let w' := if Nat.eqb id target then run_callback _onMediaEncrypted w
                else w in
      fire_encrypted media rest w'
  end.

(** Delivery of one event.  Settling a promise that does not exist or is
    already settled does nothing. *)
Definition deliver (w : World) (ev : Event) : World :=
  match ev with
  | MEDIA_ATTACHING => run_callback onMediaAttaching w
  | MEDIA_ATTACHED media => run_callback (onMediaAttached media) w
  | MANIFEST_PARSED levels => run_callback (onManifestParsed levels) w
  | LEVEL_SWITCHED data => run_callback (onLevelSwitched data) w
  | AccessResolved p access =>
      match accessRequests w !! p with
      | Some (keySystem, Pending) =>
          then_catch (_onMediaKeySystemAccessObtained keySystem access)
                     (access_onRejected keySystem)
                     (with_accessRequests (settle p Fulfilled) w)
      | _ => w
      end
  | AccessRejected p err =>
      match accessRequests w !! p with
      | Some (keySystem, Pending) =>
          run_callback (access_onRejected keySystem err)
                       (with_accessRequests (settle p Rejected) w)
      | _ => w
      end
  | MediaKeysResolved p keys =>
      match keysRequests w !! p with
      | Some (item, Pending) =>
          then_catch (keys_onFulfilled item keys) keys_onRejected
                     (with_keysRequests (settle p Fulfilled) w)
      | _ => w
      end
  | MediaKeysRejected p err =>
      match keysRequests w !! p with
      | Some (item, Pending) =>
          run_callback (keys_onRejected err)
                       (with_keysRequests (settle p Rejected) w)
      | _ => w
      end
  | Encrypted media => fire_encrypted media (encryptedListeners w) w
  end.

(** A whole history of events, oldest first. *)
Definition run (w : World) (evs : list Event) : World :=
  fold_left deliver evs w.

(** ** Projections used in the statements *)

Definition is_attach (e : Effect) : bool :=
  match e with
  | Host (setMediaKeys _ _) => true
  | _ => false
  end.

(** The attach-to-sink host calls made so far. *)
Definition attach_calls (w : World) : list Effect :=
  List.filter is_attach (trace w).

Definition is_createSession (e : Effect) : bool :=
  match e with
  | Host (createSession _) => true
  | _ => false
  end.

Definition is_fulfilled (s : PromiseState) : bool :=
  match s with
  | Fulfilled => true
  | _ => false
  end.

Definition is_manifest_parsed (ev : Event) : bool :=
  match ev with
  | MANIFEST_PARSED _ => true
  | _ => false
  end.

(** The store, i.e. [this._mediaKeysList]. *)
Definition store (w : World) : list MediaKeysListItem := _mediaKeysList (eme w).

(** * Properties *)

(** ** The key-system catalog *)

Module Catalog.

Definition capability_of (codec : string) : MediaKeySystemMediaCapability :=
  {| contentType := videoContentType codec |}.

(** The configuration object [baseConfig] once the loop has run. *)
Definition widevine_config (videoCodecs : list string)
    : MediaKeySystemConfiguration :=
  {| initDataTypes := None;
     label := None;
     persistentState := None;
     distinctiveIdentifier := None;
     sessionTypes := None;
     audioCapabilities := None;
     videoCapabilities := map capability_of videoCodecs |}.

(** The requested codecs without repetitions, first occurrences kept in
    request order (the reading of "per distinct requested video codec"). *)
Fixpoint distinct_codecs (seen codecs : list string) : list string :=
  match codecs with
  | [] => []
  | c :: rest =>
      if bool_decide (c ∈ seen) then distinct_codecs seen rest
      else c :: distinct_codecs (c :: seen) rest
  end.

(** The catalog's contract with one capability per distinct codec. *)
Definition one_capability_per_distinct_codec
    (audioCodecs videoCodecs : list string) : Prop :=
  exists cfgs,
    getSupportedMediaKeySystemConfigurations
      KeySystems.WIDEVINE audioCodecs videoCodecs = Normal (Some cfgs)
    /\ cfgs <> []
    /\ forall cfg, cfg ∈ cfgs ->
         audioCapabilities cfg = None
         /\ videoCapabilities cfg
            = map capability_of (distinct_codecs [] videoCodecs).

Lemma push_loop (videoCodecs : list string) (cfg : MediaKeySystemConfiguration) :
  fold_left
    (fun cfg codec =>
       push_videoCapability cfg {| contentType := videoContentType codec |})
    videoCodecs cfg
  = {| initDataTypes := initDataTypes cfg;
       label := label cfg;
       persistentState := persistentState cfg;
       distinctiveIdentifier := distinctiveIdentifier cfg;
       sessionTypes := sessionTypes cfg;
       audioCapabilities := audioCapabilities cfg;
       videoCapabilities :=
         videoCapabilities cfg ++ map capability_of videoCodecs |}.
Proof.
  revert cfg. induction videoCodecs as [|codec rest IH]; intros cfg.
  - simpl. rewrite app_nil_r. by destruct cfg.
  - simpl. rewrite IH. simpl. by rewrite <- app_assoc.
Qed.

Lemma createWidevine_eq (audioCodecs videoCodecs : list string)
    (drmOptions : option DrmOptions) :
  createWidevineMediaKeySystemConfigurations audioCodecs videoCodecs drmOptions
  = [widevine_config videoCodecs].
Proof.
  unfold createWidevineMediaKeySystemConfigurations. by rewrite push_loop.
Qed.

Lemma getSupported_widevine (audioCodecs videoCodecs : list string) :
  getSupportedMediaKeySystemConfigurations
    KeySystems.WIDEVINE audioCodecs videoCodecs
  = Normal (Some [widevine_config videoCodecs]).
Proof.
  unfold getSupportedMediaKeySystemConfigurations.
  rewrite String.eqb_refl. by rewrite createWidevine_eq.
Qed.

Lemma getSupported_unknown (keySystem : string)
    (audioCodecs videoCodecs : list string) :
  keySystem <> KeySystems.WIDEVINE ->
  getSupportedMediaKeySystemConfigurations keySystem audioCodecs videoCodecs
  = Throw (Error ("Unknown key-system: " +:+ keySystem)).
Proof.
  intros Hne. unfold getSupportedMediaKeySystemConfigurations.
  destruct (String.eqb_spec keySystem KeySystems.WIDEVINE); [done|done].
Qed.


(** C3, as stated, fails: a codec requested twice (two quality levels with
    the same video codec) yields two capabilities, not one. *)
Lemma build_duplicate_codec_counterexample :
  ~ one_capability_per_distinct_codec [] ["avc1.4d401f"; "avc1.4d401f"].
Proof.
  intros (cfgs & Hbuild & _ & Hall).
  rewrite getSupported_widevine in Hbuild.
  injection Hbuild as <-.
  destruct (Hall (widevine_config ["avc1.4d401f"; "avc1.4d401f"])) as [_ Hvideo].
  - apply list_elem_of_here.
  - vm_compute in Hvideo. discriminate Hvideo.
Qed.

(** C3, amended: for the supported key-system and every list of requested
    video codecs the builder returns a sequence of exactly one candidate; its
    video capabilities are one per requested codec (one per element of the
    list, repetitions included), in request order, each with content type
    [video/mp4; codecs="<codec>"]; it declares no audio capability.  For
    the video codecs [["avc1.4d401f"]] the single candidate has the single
    capability [video/mp4; codecs="avc1.4d401f"]. *)
Theorem build_one_capability_per_requested_codec
    (audioCodecs videoCodecs : list string) :
  exists cfg,
    getSupportedMediaKeySystemConfigurations
      KeySystems.WIDEVINE audioCodecs videoCodecs = Normal (Some [cfg])
    /\ videoCapabilities cfg
       = map (fun codec =>
                {| contentType :=
                     "video/mp4; codecs=" +:+ dquote +:+ codec +:+ dquote |})
             videoCodecs
    /\ length (videoCapabilities cfg) = length videoCodecs
    /\ audioCapabilities cfg = None
    /\ exists cfg1,
         getSupportedMediaKeySystemConfigurations
           KeySystems.WIDEVINE audioCodecs ["avc1.4d401f"]
         = Normal (Some [cfg1])
         /\ audioCapabilities cfg1 = None
         /\ map (fun cap => list_ascii_of_string (contentType cap))
                (videoCapabilities cfg1)
            = [list_ascii_of_string "video/mp4; codecs="
               ++ ["034"%char]
               ++ list_ascii_of_string "avc1.4d401f"
               ++ ["034"%char]].
Proof.
  exists (widevine_config videoCodecs).
  split; [apply getSupported_widevine|].
  split; [reflexivity|].
  split; [simpl; by rewrite length_map|].
  split; [reflexivity|].
  exists (widevine_config ["avc1.4d401f"]).
  split; [apply getSupported_widevine|].
  split; reflexivity.
Qed.

(** C10: the candidate sequence does not depend on the requested audio
    codecs: for any two audio codec lists and the same key-system and video
    codecs the builder returns the same result, and the negotiation step
    that submits the candidates to the capability probe acts identically. *)
Theorem build_independent_of_audioCodecs
    (keySystem : string) (audioCodecs1 audioCodecs2 videoCodecs : list string)
    (w : World) :
  getSupportedMediaKeySystemConfigurations keySystem audioCodecs1 videoCodecs
  = getSupportedMediaKeySystemConfigurations keySystem audioCodecs2 videoCodecs
  /\ createWidevineMediaKeySystemConfigurations audioCodecs1 videoCodecs None
     = createWidevineMediaKeySystemConfigurations audioCodecs2 videoCodecs None
  /\ _attemptKeySystemAccess keySystem audioCodecs1 videoCodecs w
     = _attemptKeySystemAccess keySystem audioCodecs2 videoCodecs w.
Proof.
  assert (Hc : createWidevineMediaKeySystemConfigurations
                 audioCodecs1 videoCodecs None
               = createWidevineMediaKeySystemConfigurations
                   audioCodecs2 videoCodecs None)
    by (by rewrite !createWidevine_eq).
  assert (Hg : getSupportedMediaKeySystemConfigurations
                 keySystem audioCodecs1 videoCodecs
               = getSupportedMediaKeySystemConfigurations
                   keySystem audioCodecs2 videoCodecs)
    by (unfold getSupportedMediaKeySystemConfigurations; by rewrite Hc).
  split; [exact Hg|]. split; [exact Hc|].
  unfold _attemptKeySystemAccess. by rewrite Hg.
Qed.

End Catalog.

(** ** The capability negotiator *)

Module Negotiator.



Lemma attempt_unknown (keySystem : string) (audioCodecs videoCodecs : list string)
    (w : World) :
  keySystem <> KeySystems.WIDEVINE ->
  _attemptKeySystemAccess keySystem audioCodecs videoCodecs w
  = (Throw (Error ("Unknown key-system: " +:+ keySystem)), w).
Proof.
  intros Hne. unfold _attemptKeySystemAccess, bind, lift.
  by rewrite Catalog.getSupported_unknown.
Qed.

Lemma attempt_widevine (audioCodecs videoCodecs : list string) (w : World) :
  _attemptKeySystemAccess KeySystems.WIDEVINE audioCodecs videoCodecs w
  = (Normal tt,
     with_accessRequests (fun l => l ++ [(KeySystems.WIDEVINE, Pending)])
       (with_trace
          (fun t => t ++ [Console Log [VConfigs [Catalog.widevine_config videoCodecs]];
                          Host (requestMediaKeySystemAccess KeySystems.WIDEVINE
                                  [Catalog.widevine_config videoCodecs])])
          w)).
Proof.
  unfold _attemptKeySystemAccess, bind, lift.
  rewrite Catalog.getSupported_widevine.
  unfold _attemptKeySystemAccess_body, host_requestMediaKeySystemAccess,
    console, emit, bind, with_accessRequests, with_trace. simpl.
  by rewrite <- app_assoc.
Qed.




(** C8: for a key-system identifier that is not registered in the catalog,
    candidate building fails with the unknown-key-system error, the
    negotiation step fails with it too, and the Store (indeed the whole
    state) is unchanged: no entry is created, no entry is mutated. *)
Theorem unsupported_keySystem_store_unchanged
    (keySystem : string) (audioCodecs videoCodecs : list string) (w : World) :
  keySystem <> KeySystems.WIDEVINE ->
  getSupportedMediaKeySystemConfigurations keySystem audioCodecs videoCodecs
    = Throw (Error ("Unknown key-system: " +:+ keySystem))
  /\ (_attemptKeySystemAccess keySystem audioCodecs videoCodecs w).1
     = Throw (Error ("Unknown key-system: " +:+ keySystem))
  /\ (_attemptKeySystemAccess keySystem audioCodecs videoCodecs w).2 = w
  /\ store (_attemptKeySystemAccess keySystem audioCodecs videoCodecs w).2
     = store w.
Proof.
  intros Hne. rewrite attempt_unknown by done.
  split; [by apply Catalog.getSupported_unknown|]. by repeat split.
Qed.

Lemma unsupported_keySystem_store_unchanged_witness :
  "com.microsoft.playready" <> KeySystems.WIDEVINE
  /\ store (_attemptKeySystemAccess "com.microsoft.playready" ["mp4a.40.2"]
              ["avc1.4d401f"] constructor).2
     = [].
Proof.
  split; [discriminate|].
  apply (unsupported_keySystem_store_unchanged
           "com.microsoft.playready" ["mp4a.40.2"] ["avc1.4d401f"] constructor).
  discriminate.
Defined.

End Negotiator.

(** ** What the session-creation pass leaves alone *)

Module Frame.

(** Everything but the items' contents, the session counter and the
    non-attach part of the trace. *)
Definition preserved (w w' : World) : Prop :=
  accessRequests w' = accessRequests w
  /\ keysRequests w' = keysRequests w
  /\ encryptedListeners w' = encryptedListeners w
  /\ _media (eme w') = _media (eme w)
  /\ _hasSetMediaKeys (eme w') = _hasSetMediaKeys (eme w)
  /\ length (store w') = length (store w)
  /\ attach_calls w' = attach_calls w.

Lemma preserved_refl (w : World) : preserved w w.
Proof. by repeat split. Qed.

Lemma preserved_trans (w1 w2 w3 : World) :
  preserved w1 w2 -> preserved w2 w3 -> preserved w1 w3.
Proof.
  unfold preserved. intros (?&?&?&?&?&?&?) (?&?&?&?&?&?&?).
  repeat split; congruence.
Qed.

Lemma callback_preserved (i : nat) (item : MediaKeysListItem) (w : World) :
  preserved w (_onMediaKeysCreated_callback i item w).2.
Proof.
  unfold _onMediaKeysCreated_callback.
  destruct (mediaKeysSession item); [apply preserved_refl|].
  destruct (mediaKeys item) as [keys|]; [|apply preserved_refl].
  unfold preserved, store, attach_calls. simpl.
  repeat split; try done.
  - by rewrite length_alter.
  - rewrite <- app_assoc. rewrite List.filter_app. simpl. by rewrite app_nil_r.
Qed.

Lemma forEach_preserved (positions : list nat) (w : World) :
  preserved w (forEach_positions _onMediaKeysCreated_callback positions w).2.
Proof.
  revert w. induction positions as [|i rest IH]; intros w;
    [apply preserved_refl|].
  simpl. unfold bind at 1. simpl.
  destruct (_mediaKeysList (eme w) !! i) as [item|] eqn:Hi.
  - unfold bind at 1.
    pose proof (callback_preserved i item w) as Hcb.
    destruct (_onMediaKeysCreated_callback i item w) as [[[]|e] w1]; simpl in *.
    + eapply preserved_trans; [exact Hcb|apply IH].
    + exact Hcb.
  - unfold bind at 1. simpl. apply IH.
Qed.

Lemma onMediaKeysCreated_preserved (w : World) :
  preserved w (_onMediaKeysCreated w).2.
Proof.
  unfold _onMediaKeysCreated, mediaKeysList_forEach, bind, this. simpl.
  apply forEach_preserved.
Qed.

(** Fulfilment of a [createMediaKeys] promise: the [then] callback and,
    when the pass throws, the [catch] callback. *)
Lemma keys_fulfilled_preserved (item : nat) (keys : MediaKeys) (w : World) :
  preserved w (then_catch (keys_onFulfilled item keys) keys_onRejected w).
Proof.
  unfold then_catch, keys_onFulfilled, bind at 1 2.
  unfold assign at 1, console at 1, emit at 1.
  set (w1 := with_trace _ _).
  assert (Hw1 : preserved w w1).
  { subst w1. unfold preserved, store, attach_calls. simpl.
    repeat split; try done.
    - by rewrite length_alter.
    - rewrite List.filter_app. simpl. by rewrite app_nil_r. }
  pose proof (onMediaKeysCreated_preserved w1) as Hpass.
  destruct (_onMediaKeysCreated w1) as [[[]|e] w2]; simpl in Hpass.
  - by eapply preserved_trans.
  - eapply preserved_trans; [exact Hw1|].
    eapply preserved_trans; [exact Hpass|].
    unfold preserved, store, attach_calls. simpl.
    repeat split; try done.
    rewrite List.filter_app. simpl. by rewrite app_nil_r.
Qed.

End Frame.

(** ** The binder: attaching media keys on the ['encrypted'] event *)

Ltac unfold_methods :=
  cbv beta iota zeta delta
    [bind ret throw lift emit console this assign run_callback then_catch
     onMediaAttaching onMediaAttached onManifestParsed onLevelSwitched
     _onMediaEncrypted _attemptSetMediaKeys _onMediaKeySystemAccessObtained
     _onNewMediaKeySession _attemptKeySystemAccess_body
     host_requestMediaKeySystemAccess host_createMediaKeys
     host_createSession host_addEventListener
     access_onRejected keys_onFulfilled keys_onRejected
     with_eme with_trace with_accessRequests with_keysRequests
     with_encryptedListeners with_sessionsCreated
     set_mediaKeysList set_media set_hasSetMediaKeys set_isMediaEncrypted
     store attach_calls fst snd
     eme trace accessRequests keysRequests encryptedListeners sessionsCreated
     _mediaKeysList _media _hasSetMediaKeys _isMediaEncrypted].

Module Binder.

Definition has_module (item : MediaKeysListItem) : bool :=
  match mediaKeys item with
  | Some _ => true
  | None => false
  end.

(** The first Store entry, by insertion order, whose module is present. *)
Definition first_with_module (l : list MediaKeysListItem)
    : option MediaKeysListItem :=
  List.find has_module l.

Definition no_access_error : Effect :=
  Console ErrorLevel
    [VString "Fatal error: Media is encrypted but no key-system access has been obtained yet"].

(** The binder's contract with the selection by module presence: on the
    notification in the unattached state, the module of the first entry
    that has one is attached; without such an entry the error is reported,
    nothing is attached and the flag stays false. *)
Definition selects_first_present_module
    (w : World) (media : HTMLMediaElement) : Prop :=
  _media (eme w) = Some media ->
  _hasSetMediaKeys (eme w) = false ->
  let w' := run_callback _onMediaEncrypted w in
  match first_with_module (store w) with
  | Some item =>
      attach_calls w'
      = attach_calls w ++ [Host (setMediaKeys media (mediaKeys item))]
      /\ _hasSetMediaKeys (eme w') = true
  | None =>
      attach_calls w' = attach_calls w
      /\ _hasSetMediaKeys (eme w') = false
      /\ last (trace w') = Some no_access_error
  end.

(** The sink is attached, access has been obtained, the module has not been
    created yet. *)
Definition access_without_module : World :=
  run constructor
    [MEDIA_ATTACHED (MediaElement 0);
     MANIFEST_PARSED [{| audioCodec := "mp4a.40.2"; videoCodec := "avc1.4d401f" |}];
     AccessResolved 0 (AccessHandle 0)].

(** The contract above does not hold of the code: with one entry whose
    module is still absent the notification makes an attach call (with the
    absent module) and sets the flag. *)
Lemma binds_absent_module_counterexample :
  ~ selects_first_present_module access_without_module (MediaElement 0).
Proof.
  intros H. destruct H as (Hcalls & _); [reflexivity|reflexivity|].
  vm_compute in Hcalls. discriminate Hcalls.
Qed.

(** Where the code agrees with the contract: on an empty Store the
    notification reports the fatal error, makes no attach call and leaves
    the flag false; when the first entry has its module, that module is
    attached to the sink and the flag becomes true. *)
Theorem encrypted_binds_first_entry (w : World) (media : HTMLMediaElement) :
  _media (eme w) = Some media ->
  _hasSetMediaKeys (eme w) = false ->
  (_onMediaEncrypted w).1 = Normal tt
  /\ match store w with
     | [] =>
         attach_calls (_onMediaEncrypted w).2 = attach_calls w
         /\ _hasSetMediaKeys (eme (_onMediaEncrypted w).2) = false
         /\ last (trace (_onMediaEncrypted w).2) = Some no_access_error
     | item :: _ =>
         forall keys, mediaKeys item = Some keys ->
           attach_calls (_onMediaEncrypted w).2
           = attach_calls w ++ [Host (setMediaKeys media (Some keys))]
           /\ _hasSetMediaKeys (eme (_onMediaEncrypted w).2) = true
     end.
Proof.
  destruct w as [[items m flag enc] ar kr ls n t]. simpl.
  intros -> ->. unfold store. simpl.
  destruct items as [|item rest]; unfold_methods; simpl.
  - split; [done|]. split; [|split; [done|]].
    + rewrite <- app_assoc, List.filter_app. simpl. by rewrite app_nil_r.
    + rewrite <- app_assoc. by rewrite last_app.
  - split; [done|]. intros keys ->. split; [|done].
    rewrite <- !app_assoc, List.filter_app. by simpl.
Qed.

(** Whatever the first entry holds as its module is what the attach call
    receives. *)
Lemma encrypted_passes_first_entry_module
    (w : World) (media : HTMLMediaElement) (item : MediaKeysListItem) :
  _media (eme w) = Some media ->
  _hasSetMediaKeys (eme w) = false ->
  store w !! 0 = Some item ->
  attach_calls (_onMediaEncrypted w).2
  = attach_calls w ++ [Host (setMediaKeys media (mediaKeys item))]
  /\ _hasSetMediaKeys (eme (_onMediaEncrypted w).2) = true.
Proof.
  destruct w as [[items m flag enc] ar kr ls n t]. unfold store. simpl.
  intros -> -> Hitem. unfold_methods. simpl. rewrite Hitem. simpl.
  split; [|done]. rewrite <- !app_assoc, List.filter_app. by simpl.
Qed.

(** The module has been created on the only entry. *)
Definition access_with_module : World :=
  run access_without_module [MediaKeysResolved 0 (MediaKeysHandle 0)].

Lemma encrypted_binds_first_entry_witness :
  _media (eme access_with_module) = Some (MediaElement 0)
  /\ _hasSetMediaKeys (eme access_with_module) = false
  /\ attach_calls (_onMediaEncrypted access_with_module).2
     = [Host (setMediaKeys (MediaElement 0) (Some (MediaKeysHandle 0)))]
  /\ _hasSetMediaKeys (eme (_onMediaEncrypted access_with_module).2) = true.
Proof.
  split; [reflexivity|]. split; [reflexivity|].
  exact (proj2 (encrypted_binds_first_entry
                  access_with_module (MediaElement 0) eq_refl eq_refl)
               (MediaKeysHandle 0) eq_refl).
Defined.

(** Two entries, the sink attached; the module of the second entry has
    been created, that of the first has not. *)
Definition module_on_second_entry : World :=
  run constructor
    [MEDIA_ATTACHED (MediaElement 0);
     MANIFEST_PARSED [{| audioCodec := "mp4a.40.2"; videoCodec := "avc1.4d401f" |}];
     MANIFEST_PARSED [{| audioCodec := "mp4a.40.2"; videoCodec := "avc1.4d401f" |}];
     AccessResolved 0 (AccessHandle 0);
     AccessResolved 1 (AccessHandle 1);
     MediaKeysResolved 1 (MediaKeysHandle 1)].

(** C1, divergence of the code: [_attemptSetMediaKeys] tests that the first
    entry exists, not that its module is present.  With one entry whose
    module has not been created yet (no entry has a module), the
    notification does not report the error and stay unattached: it calls
    [setMediaKeys] with the null module, sets the flag and logs
    ["Media keys set!"]; the module that arrives afterwards is never
    attached, whatever notifications follow.  With two entries of which
    only the second has a module, the notification does not attach that
    module either: it passes the null module of the first entry. *)
Theorem binds_absent_module :
  first_with_module (store access_without_module) = None
  /\ _hasSetMediaKeys (eme access_without_module) = false
  /\ attach_calls (deliver access_without_module (Encrypted (MediaElement 0)))
     = [Host (setMediaKeys (MediaElement 0) None)]
  /\ _hasSetMediaKeys
       (eme (deliver access_without_module (Encrypted (MediaElement 0))))
     = true
  /\ last (trace (deliver access_without_module (Encrypted (MediaElement 0))))
     = Some (Console Log [VString "Media keys set!"])
  /\ attach_calls
       (run access_without_module
          [Encrypted (MediaElement 0);
           MediaKeysResolved 0 (MediaKeysHandle 0);
           Encrypted (MediaElement 0)])
     = [Host (setMediaKeys (MediaElement 0) None)]
  /\ first_with_module (store module_on_second_entry)
     = Some {| mediaKeys := Some (MediaKeysHandle 1);
               mediaKeysSession := None;
               mediaKeySystemAccess := AccessHandle 1 |}
  /\ attach_calls (deliver module_on_second_entry (Encrypted (MediaElement 0)))
     = [Host (setMediaKeys (MediaElement 0) None)].
Proof. vm_compute. by repeat split. Qed.

(** *** At most one attach call *)

(** How the flag and the attach calls may evolve between two states. *)
Definition bound_once (w w' : World) : Prop :=
  if _hasSetMediaKeys (eme w)
  then _hasSetMediaKeys (eme w') = true /\ attach_calls w' = attach_calls w
  else (_hasSetMediaKeys (eme w') = false /\ attach_calls w' = attach_calls w)
       \/ (_hasSetMediaKeys (eme w') = true
           /\ length (attach_calls w') = S (length (attach_calls w))).

Lemma bound_once_same (w w' : World) :
  _hasSetMediaKeys (eme w') = _hasSetMediaKeys (eme w) ->
  attach_calls w' = attach_calls w ->
  bound_once w w'.
Proof.
  intros Hf Hc. unfold bound_once.
  destruct (_hasSetMediaKeys (eme w)); [done|by left].
Qed.

Lemma bound_once_refl (w : World) : bound_once w w.
Proof. by apply bound_once_same. Qed.

Lemma bound_once_trans (w1 w2 w3 : World) :
  bound_once w1 w2 -> bound_once w2 w3 -> bound_once w1 w3.
Proof.
  unfold bound_once.
  destruct (_hasSetMediaKeys (eme w1)).
  - intros [-> <-]. done.
  - intros [[-> <-]|[-> H12]]; [done|].
    intros [H3 ->]. by right.
Qed.

Lemma bound_once_preserved (w w' : World) :
  Frame.preserved w w' -> bound_once w w'.
Proof.
  intros (_&_&_&_&Hf&_&Hc). by apply bound_once_same.
Qed.

Lemma onMediaEncrypted_bound_once (w : World) :
  bound_once w (run_callback _onMediaEncrypted w).
Proof.
  destruct w as [[items m flag enc] ar kr ls n t].
  unfold bound_once. unfold_methods.
  destruct flag; simpl.
  - split; [done|]. rewrite List.filter_app. simpl. by rewrite app_nil_r.
  - destruct items as [|item rest]; simpl.
    + left. split; [done|].
      rewrite <- app_assoc, List.filter_app. simpl. by rewrite app_nil_r.
    + destruct m as [media|]; simpl.
      * right. split; [done|].
        rewrite <- !app_assoc, List.filter_app. simpl.
        rewrite length_app. simpl. lia.
      * left. split; [done|].
        rewrite <- !app_assoc, List.filter_app. simpl. by rewrite app_nil_r.
Qed.

Lemma fire_encrypted_bound_once
    (media : HTMLMediaElement) (listeners : list HTMLMediaElement) (w : World) :
  bound_once w (fire_encrypted media listeners w).
Proof.
  revert w. induction listeners as [|[target] rest IH]; intros w.
  - apply bound_once_refl.
  - simpl. destruct media as [id].
    destruct (Nat.eqb id target).
    + eapply bound_once_trans; [apply onMediaEncrypted_bound_once|apply IH].
    + apply IH.
Qed.

Lemma deliver_bound_once (w : World) (ev : Event) :
  bound_once w (deliver w ev).
Proof.
  destruct ev as [|media|levels|data|p access|p err|p keys|p err|media]; simpl.
  - apply bound_once_same; [done|].
    unfold_methods. rewrite List.filter_app. simpl. by rewrite app_nil_r.
  - apply bound_once_same; [done|].
    unfold_methods. rewrite <- !app_assoc, List.filter_app. simpl.
    by rewrite app_nil_r.
  - apply bound_once_same.
    + unfold onManifestParsed, run_callback, bind at 1 2, console, emit.
      rewrite Negotiator.attempt_widevine. done.
    + unfold onManifestParsed, run_callback, bind at 1 2, console, emit.
      rewrite Negotiator.attempt_widevine.
      unfold_methods. rewrite <- !app_assoc, List.filter_app. simpl.
      by rewrite app_nil_r.
  - apply bound_once_same; [done|].
    unfold_methods. rewrite List.filter_app. simpl. by rewrite app_nil_r.
  - destruct (accessRequests w !! p) as [[keySystem []]|];
      try apply bound_once_refl.
    apply bound_once_same; [done|].
    unfold_methods. rewrite <- !app_assoc, List.filter_app. simpl.
    by rewrite app_nil_r.
  - destruct (accessRequests w !! p) as [[keySystem []]|];
      try apply bound_once_refl.
    apply bound_once_same; [done|].
    unfold_methods. rewrite List.filter_app. simpl. by rewrite app_nil_r.
  - destruct (keysRequests w !! p) as [[item []]|];
      try apply bound_once_refl.
    eapply bound_once_trans;
      [|apply bound_once_preserved, Frame.keys_fulfilled_preserved].
    by apply bound_once_same.
  - destruct (keysRequests w !! p) as [[item []]|];
      try apply bound_once_refl.
    apply bound_once_same; [done|].
    unfold_methods. rewrite List.filter_app. simpl. by rewrite app_nil_r.
  - apply fire_encrypted_bound_once.
Qed.

Lemma run_bound_once (evs : list Event) (w : World) :
  bound_once w (run w evs).
Proof.
  revert w. induction evs as [|ev evs IH]; intros w.
  - apply bound_once_refl.
  - change (run w (ev :: evs)) with (run (deliver w ev) evs).
    eapply bound_once_trans; [apply deliver_bound_once|apply IH].
Qed.

(** C2: for every history of events (encrypted-content notifications
    interleaved with anything else) and from every state, the binding flag
    once true stays true, the number of attach-to-sink calls grows by at
    most one, and by none when the flag was already true; from the
    constructor's state at most one attach call is ever made, also when
    further entries acquire modules later. *)
Theorem attach_at_most_once (w : World) (evs : list Event) :
  implb (_hasSetMediaKeys (eme w)) (_hasSetMediaKeys (eme (run w evs))) = true
  /\ length (attach_calls (run w evs))
     <= length (attach_calls w) + (if _hasSetMediaKeys (eme w) then 0 else 1)
  /\ length (attach_calls (run constructor evs)) <= 1.
Proof.
  assert (Hgen : forall w0,
    implb (_hasSetMediaKeys (eme w0)) (_hasSetMediaKeys (eme (run w0 evs)))
      = true
    /\ length (attach_calls (run w0 evs))
       <= length (attach_calls w0)
          + (if _hasSetMediaKeys (eme w0) then 0 else 1)).
  { intros w0. pose proof (run_bound_once evs w0) as H.
    unfold bound_once in H.
    destruct (_hasSetMediaKeys (eme w0)).
    - destruct H as [-> ->]. simpl. split; [done|lia].
    - simpl. destruct H as [[_ Hc]|[_ Hc]]; rewrite Hc; split; try done; lia. }
  destruct (Hgen w) as [H1 H2]. split; [exact H1|]. split; [exact H2|].
  destruct (Hgen constructor) as [_ H3]. exact H3.
Qed.

End Binder.

(** ** The store of key-system entries *)

Module Store.

Definition new_item (access : MediaKeySystemAccess) : MediaKeysListItem :=
  {| mediaKeys := None;
     mediaKeysSession := None;
     mediaKeySystemAccess := access |}.

Lemma onAccessObtained_run
    (keySystem : string) (access : MediaKeySystemAccess) (w : World) :
  _onMediaKeySystemAccessObtained keySystem access w
  = (Normal tt,
     with_trace
       (fun t => t ++ [Host (getConfiguration access);
                       Console Log
                         [VString "Key system access obtained with config:";
                          VAccessConfiguration access];
                       Host (createMediaKeys access);
                       Console Log [VString "Obtained key-system access for:";
                                    VString keySystem]])
       (with_keysRequests (fun l => l ++ [(length (store w), Pending)])
          (with_eme (set_mediaKeysList (fun l => l ++ [new_item access])) w))).
Proof.
  destruct w as [[items m flag enc] ar kr ls n t].
  unfold_methods. simpl. by rewrite <- !app_assoc.
Qed.

(** C7: when a pending capability-access request succeeds, the Store is
    the previous Store followed by exactly one new entry, whose access
    handle is the one obtained and whose module and session are absent;
    every entry that was there before is unchanged; module creation is
    requested from that handle, with its continuation bound to the new
    entry, the last one of the Store. *)
Theorem access_success_appends_one_entry
    (w : World) (p : nat) (keySystem : string) (access : MediaKeySystemAccess) :
  accessRequests w !! p = Some (keySystem, Pending) ->
  store (deliver w (AccessResolved p access))
  = store w ++ [{| mediaKeys := None;
                   mediaKeysSession := None;
                   mediaKeySystemAccess := access |}]
  /\ length (store (deliver w (AccessResolved p access))) = S (length (store w))
  /\ take (length (store w)) (store (deliver w (AccessResolved p access)))
     = store w
  /\ keysRequests (deliver w (AccessResolved p access))
     = keysRequests w ++ [(length (store w), Pending)]
  /\ trace (deliver w (AccessResolved p access))
     = trace w ++ [Host (getConfiguration access);
                   Console Log
                     [VString "Key system access obtained with config:";
                      VAccessConfiguration access];
                   Host (createMediaKeys access);
                   Console Log [VString "Obtained key-system access for:";
                                VString keySystem]].
Proof.
  intros Hp. simpl. rewrite Hp. unfold then_catch.
  rewrite onAccessObtained_run.
  destruct w as [[items m flag enc] ar kr ls n t]. unfold store. simpl.
  split; [done|]. split; [rewrite length_app; simpl; lia|].
  split; [|done].
  by rewrite take_app_length.
Qed.

Lemma access_success_appends_one_entry_witness :
  accessRequests
    (run constructor
       [MANIFEST_PARSED [{| audioCodec := "mp4a.40.2";
                            videoCodec := "avc1.4d401f" |}]]) !! 0
  = Some (KeySystems.WIDEVINE, Pending)
  /\ store
       (deliver
          (run constructor
             [MANIFEST_PARSED [{| audioCodec := "mp4a.40.2";
                                  videoCodec := "avc1.4d401f" |}]])
          (AccessResolved 0 (AccessHandle 7)))
     = [{| mediaKeys := None;
           mediaKeysSession := None;
           mediaKeySystemAccess := AccessHandle 7 |}].
Proof.
  split; [reflexivity|].
  apply (access_success_appends_one_entry
           (run constructor
              [MANIFEST_PARSED [{| audioCodec := "mp4a.40.2";
                                   videoCodec := "avc1.4d401f" |}]])
           0 KeySystems.WIDEVINE (AccessHandle 7)).
  reflexivity.
Defined.

(** *** How many entries are appended *)

Definition fulfilled_for (keySystem : string) (r : string * PromiseState)
    : bool :=
  String.eqb r.1 keySystem && is_fulfilled r.2.

(** The entries appended for a key-system: one per fulfilled access request
    whose closures captured that identifier. *)
Definition entries_appended_for (keySystem : string) (w : World) : nat :=
  length (List.filter (fulfilled_for keySystem) (accessRequests w)).

(** The invariant of the data model, per key-system identifier. *)
Definition one_entry_per_keySystem (w : World) : Prop :=
  forall keySystem, entries_appended_for keySystem w <= 1.

Definition two_levels : list Level :=
  [{| audioCodec := "mp4a.40.2"; videoCodec := "avc1.4d401f" |};
   {| audioCodec := "mp4a.40.2"; videoCodec := "avc1.64001f" |}].

(** C4, as stated, fails: two manifest-parsed events, each followed by a
    successful access request, leave two entries in the Store, both for the
    one built-in key-system. *)
Lemma two_manifests_two_entries_counterexample :
  ~ one_entry_per_keySystem
      (run constructor
         [MANIFEST_PARSED two_levels;
          AccessResolved 0 (AccessHandle 0);
          MANIFEST_PARSED two_levels;
          AccessResolved 1 (AccessHandle 1)]).
Proof.
  intros H. specialize (H KeySystems.WIDEVINE).
  vm_compute in H. lia.
Qed.

(** The Store in that state. *)
Example two_manifests_store :
  store
    (run constructor
       [MANIFEST_PARSED two_levels;
        AccessResolved 0 (AccessHandle 0);
        MANIFEST_PARSED two_levels;
        AccessResolved 1 (AccessHandle 1)])
  = [new_item (AccessHandle 0); new_item (AccessHandle 1)].
Proof. reflexivity. Qed.

Lemma filter_settle (keySystem ks0 : string) (s : PromiseState)
    (l : list (string * PromiseState)) (p : nat) :
  l !! p = Some (ks0, Pending) ->
  length (List.filter (fulfilled_for keySystem) (settle p s l))
  = length (List.filter (fulfilled_for keySystem) l)
    + (if fulfilled_for keySystem (ks0, s) then 1 else 0).
Proof.
  revert p. induction l as [|r l IH]; intros p Hp; [done|].
  destruct p as [|p]; simpl in *.
  - injection Hp as ->. unfold fulfilled_for. simpl.
    rewrite andb_false_r.
    destruct ((ks0 =? keySystem)%string && is_fulfilled s); simpl; lia.
  - specialize (IH p Hp).
    destruct (fulfilled_for keySystem r); simpl; rewrite IH; lia.
Qed.

Definition all_widevine (l : list (string * PromiseState)) : Prop :=
  Forall (fun r => r.1 = KeySystems.WIDEVINE) l.

Lemma all_widevine_settle (s : PromiseState) (p : nat)
    (l : list (string * PromiseState)) :
  all_widevine l -> all_widevine (settle p s l).
Proof.
  unfold all_widevine, settle. intros Hl.
  apply Forall_alter; [done|]. by intros [ks st] _ H.
Qed.

(** The state of the negotiation: the requests are all for the built-in
    key-system and the Store has one entry per fulfilled request. *)
Definition negotiation_inv (w : World) : Prop :=
  all_widevine (accessRequests w)
  /\ length (store w) = entries_appended_for KeySystems.WIDEVINE w.

Lemma negotiation_inv_same (w w' : World) :
  accessRequests w' = accessRequests w ->
  length (store w') = length (store w) ->
  negotiation_inv w -> negotiation_inv w'.
Proof.
  unfold negotiation_inv, entries_appended_for. intros -> ->. done.
Qed.

Lemma onMediaEncrypted_negotiation (w : World) :
  accessRequests (run_callback _onMediaEncrypted w) = accessRequests w
  /\ store (run_callback _onMediaEncrypted w) = store w.
Proof.
  destruct w as [[items m flag enc] ar kr ls n t]. unfold_methods.
  destruct flag; simpl; [done|].
  destruct items as [|item rest]; simpl; [done|].
  by destruct m.
Qed.

Lemma fire_encrypted_negotiation
    (media : HTMLMediaElement) (listeners : list HTMLMediaElement) (w : World) :
  accessRequests (fire_encrypted media listeners w) = accessRequests w
  /\ store (fire_encrypted media listeners w) = store w.
Proof.
  revert w. induction listeners as [|[target] rest IH]; intros w; [done|].
  simpl. destruct media as [id]. destruct (Nat.eqb id target); [|apply IH].
  destruct (IH (run_callback _onMediaEncrypted w)) as [-> ->].
  apply onMediaEncrypted_negotiation.
Qed.

Lemma deliver_negotiation (w : World) (ev : Event) :
  negotiation_inv w ->
  negotiation_inv (deliver w ev)
  /\ length (accessRequests (deliver w ev))
     = length (accessRequests w) + (if is_manifest_parsed ev then 1 else 0).
Proof.
  intros Hinv.
  destruct ev as [|media|levels|data|p access|p err|p keys|p err|media]; simpl.
  - split; [|lia]. by apply (negotiation_inv_same w).
  - split; [|lia]. by apply (negotiation_inv_same w).
  - unfold onManifestParsed, run_callback, bind at 1 2, console, emit.
    rewrite Negotiator.attempt_widevine.
    destruct Hinv as [Hall Hlen].
    unfold negotiation_inv, entries_appended_for, store in *. simpl.
    rewrite List.filter_app, !length_app. simpl.
    split; [split|lia].
    + apply Forall_app. split; [done|]. by apply Forall_singleton.
    + lia.
  - split; [|lia]. by apply (negotiation_inv_same w).
  - destruct (accessRequests w !! p) as [[keySystem st]|] eqn:Hp;
      [|split; [done|lia]].
    destruct st; try (split; [done|lia]).
    unfold then_catch. rewrite onAccessObtained_run.
    destruct Hinv as [Hall Hlen].
    assert (Hks : keySystem = KeySystems.WIDEVINE).
    { unfold all_widevine in Hall. rewrite Forall_lookup in Hall.
      apply (Hall p (keySystem, Pending) Hp). }
    subst keySystem.
    unfold negotiation_inv, entries_appended_for, store in *. simpl.
    rewrite (filter_settle _ KeySystems.WIDEVINE Fulfilled _ p Hp).
    change (fulfilled_for KeySystems.WIDEVINE (KeySystems.WIDEVINE, Fulfilled))
      with true.
    unfold settle at 2. rewrite length_alter, length_app. simpl.
    split; [split|lia].
    + by apply all_widevine_settle.
    + lia.
  - destruct (accessRequests w !! p) as [[keySystem st]|] eqn:Hp;
      [|split; [done|lia]].
    destruct st; try (split; [done|lia]).
    destruct Hinv as [Hall Hlen].
    unfold negotiation_inv, entries_appended_for, store in *.
    destruct w as [[items m flag enc] ar kr ls n t]. simpl in *.
    rewrite (filter_settle _ keySystem Rejected _ p Hp).
    replace (fulfilled_for KeySystems.WIDEVINE (keySystem, Rejected))
      with false by (unfold fulfilled_for; simpl; by rewrite andb_false_r).
    unfold settle at 2. rewrite length_alter.
    split; [split|lia].
    + by apply all_widevine_settle.
    + lia.
  - destruct (keysRequests w !! p) as [[item st]|] eqn:Hp;
      [|split; [done|lia]].
    destruct st; try (split; [done|lia]).
    pose proof (Frame.keys_fulfilled_preserved item keys
                  (with_keysRequests (settle p Fulfilled) w))
      as (Har&_&_&_&_&Hlen&_).
    simpl in Har. split; [|rewrite Har; lia].
    apply (negotiation_inv_same w); [exact Har|exact Hlen|done].
  - destruct (keysRequests w !! p) as [[item st]|] eqn:Hp;
      [|split; [done|lia]].
    destruct st; try (split; [done|lia]).
    split; [|unfold_methods; simpl; lia].
    by apply (negotiation_inv_same w).
  - destruct (fire_encrypted_negotiation media (encryptedListeners w) w)
      as [Har Hst].
    split; [|rewrite Har; lia].
    apply (negotiation_inv_same w); [done|by rewrite Hst|done].
Qed.

Lemma run_negotiation (evs : list Event) (w : World) :
  negotiation_inv w ->
  negotiation_inv (run w evs)
  /\ length (accessRequests (run w evs))
     = length (accessRequests w) + length (List.filter is_manifest_parsed evs).
Proof.
  revert w. induction evs as [|ev evs IH]; intros w Hinv.
  - simpl. split; [done|lia].
  - change (run w (ev :: evs)) with (run (deliver w ev) evs).
    destruct (deliver_negotiation w ev Hinv) as [Hinv' Hlen'].
    destruct (IH (deliver w ev) Hinv') as [Hinv'' Hlen''].
    split; [done|]. rewrite Hlen'', Hlen'. simpl.
    destruct (is_manifest_parsed ev); simpl; lia.
Qed.

Lemma filter_length_le {A} (f : A -> bool) (l : list A) :
  length (List.filter f l) <= length l.
Proof.
  induction l as [|x l IH]; simpl; [lia|].
  destruct (f x); simpl; lia.
Qed.

(** C4, amended: for the lifetime of the controller exactly one entry is
    appended to the Store per successful access request, and one access
    request, always for the one built-in key-system, is issued per
    manifest-parsed event: the number of entries equals the number of
    successful access requests and never exceeds the number of
    manifest-parsed events. *)
Theorem one_entry_per_successful_request (evs : list Event) :
  length (store (run constructor evs))
  = entries_appended_for KeySystems.WIDEVINE (run constructor evs)
  /\ Forall (fun r => r.1 = KeySystems.WIDEVINE)
            (accessRequests (run constructor evs))
  /\ length (accessRequests (run constructor evs))
     = length (List.filter is_manifest_parsed evs)
  /\ length (store (run constructor evs))
     <= length (List.filter is_manifest_parsed evs).
Proof.
  assert (Hinit : negotiation_inv constructor).
  { split; [apply Forall_nil_2|reflexivity]. }
  destruct (run_negotiation evs constructor Hinit) as [[Hall Hlen] Hreq].
  simpl in Hreq.
  split; [exact Hlen|]. split; [exact Hall|]. split; [exact Hreq|].
  rewrite Hlen, <- Hreq. apply filter_length_le.
Qed.

End Store.

(** ** The session-creation pass *)

Module Sessions.

Definition createSession_TypeError : JsError :=
  TypeError "Cannot read property 'createSession' of null".

(** The pass over the items from some position on, as the loop of
    [_onMediaKeysCreated] performs it: the items as left by the loop, the
    host's session counter, the effects and the completion. *)
Fixpoint pass_items (todo : list MediaKeysListItem) (serial : nat)
    : list MediaKeysListItem * nat * list Effect * Completion unit :=
  match todo with
  | [] => ([], serial, [], Normal tt)
  | item :: rest =>
      match mediaKeysSession item with
      | Some _ =>
          let '(rest', serial', effects, c) := pass_items rest serial in
          (item :: rest', serial', effects, c)
      | None =>
          match mediaKeys item with
          | None => (item :: rest, serial, [], Throw createSession_TypeError)
          | Some keys =>
              let session := SessionHandle keys serial in
              let '(rest', serial', effects, c) :=
                pass_items rest (S serial) in
              (set_item_mediaKeysSession (Some session) item :: rest',
               serial',
               Host (createSession keys)
                 :: Console Log [VString "New key-system session:";
                                 VSession session]
                 :: effects,
               c)
          end
      end
  end.

(** The world after the loop has produced [r]. *)
Definition after_pass (pre : list MediaKeysListItem)
    (r : list MediaKeysListItem * nat * list Effect * Completion unit)
    (w : World) : Completion unit * World :=
  let '(todo', serial', effects, c) := r in
  (c,
   {| eme := set_mediaKeysList (fun _ => pre ++ todo') (eme w);
      accessRequests := accessRequests w;
      keysRequests := keysRequests w;
      encryptedListeners := encryptedListeners w;
      sessionsCreated := serial';
      trace := trace w ++ effects |}).

Lemma callback_skips (i : nat) (item : MediaKeysListItem)
    (session : MediaKeySession) (w : World) :
  mediaKeysSession item = Some session ->
  _onMediaKeysCreated_callback i item w = (Normal tt, w).
Proof. intros H. unfold _onMediaKeysCreated_callback. by rewrite H. Qed.

Lemma callback_throws (i : nat) (item : MediaKeysListItem) (w : World) :
  mediaKeysSession item = None ->
  mediaKeys item = None ->
  _onMediaKeysCreated_callback i item w = (Throw createSession_TypeError, w).
Proof.
  intros Hs Hk. unfold _onMediaKeysCreated_callback. by rewrite Hs, Hk.
Qed.

Lemma callback_creates (i : nat) (item : MediaKeysListItem)
    (keys : MediaKeys) (w : World) :
  mediaKeysSession item = None ->
  mediaKeys item = Some keys ->
  _onMediaKeysCreated_callback i item w
  = (Normal tt,
     {| eme := set_mediaKeysList
                 (alter (set_item_mediaKeysSession
                           (Some (SessionHandle keys (sessionsCreated w)))) i)
                 (eme w);
        accessRequests := accessRequests w;
        keysRequests := keysRequests w;
        encryptedListeners := encryptedListeners w;
        sessionsCreated := S (sessionsCreated w);
        trace := trace w
                 ++ [Host (createSession keys);
                     Console Log
                       [VString "New key-system session:";
                        VSession (SessionHandle keys (sessionsCreated w))]] |}).
Proof.
  intros Hs Hk. unfold _onMediaKeysCreated_callback. rewrite Hs, Hk.
  destruct w as [[items m flag enc] ar kr ls n t].
  unfold_methods. simpl. by rewrite <- app_assoc.
Qed.

Lemma forEach_pass (todo pre : list MediaKeysListItem) (w : World) :
  store w = pre ++ todo ->
  forEach_positions _onMediaKeysCreated_callback
    (seq (length pre) (length todo)) w
  = after_pass pre (pass_items todo (sessionsCreated w)) w.
Proof.
  revert pre w. induction todo as [|item rest IH]; intros pre w Hstore.
  - destruct w as [[items m flag enc] ar kr ls n t].
    unfold store in Hstore. simpl in *. subst items.
    unfold ret, after_pass, set_mediaKeysList. simpl.
    by rewrite !app_nil_r.
  - simpl seq. simpl forEach_positions.
    unfold bind at 1, this at 1.
    change (_mediaKeysList (eme w)) with (store w). rewrite Hstore.
    rewrite list_lookup_middle by done.
    unfold bind at 1. simpl pass_items.
    destruct (mediaKeysSession item) as [session|] eqn:Hsession.
    + rewrite (callback_skips _ _ session) by done.
      replace (S (length pre)) with (length (pre ++ [item]))
        by (rewrite length_app; simpl; lia).
      rewrite (IH (pre ++ [item]) w)
        by (by rewrite <- app_assoc).
      destruct (pass_items rest (sessionsCreated w))
        as [[[rest' serial'] effects] c].
      unfold after_pass. by rewrite <- app_assoc.
    + destruct (mediaKeys item) as [keys|] eqn:Hkeys.
      * rewrite (callback_creates _ _ keys) by done.
        set (item' := set_item_mediaKeysSession
                        (Some (SessionHandle keys (sessionsCreated w))) item).
        set (w1 := Build_World _ _ _ _ _ _).
        assert (Hstore1 : store w1 = (pre ++ [item']) ++ rest).
        { subst w1. unfold store in *. simpl. rewrite Hstore.
          replace (length pre) with (length pre + 0) by lia.
          rewrite alter_app_r. simpl. by rewrite <- app_assoc. }
        replace (S (length pre)) with (length (pre ++ [item']))
          by (rewrite length_app; simpl; lia).
        rewrite (IH _ w1 Hstore1).
        replace (sessionsCreated w1) with (S (sessionsCreated w)) by done.
        destruct (pass_items rest (S (sessionsCreated w)))
          as [[[rest' serial'] effects] c].
        unfold after_pass. subst w1. simpl.
        by rewrite <- !app_assoc.
      * rewrite callback_throws by done.
        unfold after_pass.
        destruct w as [[items m flag enc] ar kr ls n t].
        unfold store in Hstore. simpl in *. subst items.
        unfold set_mediaKeysList. simpl. by rewrite app_nil_r.
Qed.

(** [_onMediaKeysCreated] is [pass_items] on the whole Store. *)
Lemma onMediaKeysCreated_pass (w : World) :
  _onMediaKeysCreated w
  = after_pass [] (pass_items (store w) (sessionsCreated w)) w.
Proof.
  unfold _onMediaKeysCreated, mediaKeysList_forEach, bind, this.
  change (_mediaKeysList (eme w)) with (store w).
  by apply (forEach_pass (store w) [] w).
Qed.

(** *** The pass as the specification words it *)

(** [ensureSessions()]: "for every Store entry whose module is present and
    whose session is absent, creates a session from the module and records
    it"; any other entry is left as it is.  The result is the Store and the
    host's session counter. *)
Fixpoint ensureSessions_spec (items : list MediaKeysListItem) (serial : nat)
    : list MediaKeysListItem * nat :=
  match items with
  | [] => ([], serial)
  | item :: rest =>
      match mediaKeys item, mediaKeysSession item with
      | Some keys, None =>
          let '(rest', serial') := ensureSessions_spec rest (S serial) in
          (set_item_mediaKeysSession (Some (SessionHandle keys serial)) item
             :: rest',
           serial')
      | _, _ =>
          let '(rest', serial') := ensureSessions_spec rest serial in
          (item :: rest', serial')
      end
  end.

(** The entry can be processed by the loop: it has a session already, or a
    module to create one from. *)
Definition processable (item : MediaKeysListItem) : bool :=
  match mediaKeysSession item, mediaKeys item with
  | None, None => false
  | _, _ => true
  end.

(** Where every entry is processable the loop does what the specification
    says and completes normally. *)
Lemma pass_items_processable (items : list MediaKeysListItem) (serial : nat) :
  forallb processable items = true ->
  exists effects,
    pass_items items serial
    = ((ensureSessions_spec items serial).1,
       (ensureSessions_spec items serial).2, effects, Normal tt).
Proof.
  revert serial. induction items as [|item rest IH]; intros serial Hall.
  - by exists [].
  - simpl in Hall. apply andb_true_iff in Hall as [Hitem Hrest].
    unfold processable in Hitem. simpl.
    destruct (mediaKeysSession item) as [session|].
    + destruct (IH serial Hrest) as [effects ->].
      exists effects.
      destruct (mediaKeys item);
        by destruct (ensureSessions_spec rest serial).
    + destruct (mediaKeys item) as [keys|]; [|done].
      destruct (IH (S serial) Hrest) as [effects ->].
      eexists. by destruct (ensureSessions_spec rest (S serial)).
Qed.

Lemma onMediaKeysCreated_processable (w : World) :
  forallb processable (store w) = true ->
  (_onMediaKeysCreated w).1 = Normal tt
  /\ store (_onMediaKeysCreated w).2
     = (ensureSessions_spec (store w) (sessionsCreated w)).1.
Proof.
  intros Hall. rewrite onMediaKeysCreated_pass.
  destruct (pass_items_processable _ (sessionsCreated w) Hall) as [effects ->].
  by unfold after_pass, store.
Qed.

(** *** Running the pass again *)

Lemma pass_items_again (items : list MediaKeysListItem) (serial serial' : nat) :
  pass_items (pass_items items serial).1.1.1 serial'
  = ((pass_items items serial).1.1.1, serial', [], (pass_items items serial).2).
Proof.
  revert serial. induction items as [|item rest IH]; intros serial; [done|].
  simpl.
  destruct (mediaKeysSession item) as [session|] eqn:Hsession.
  - specialize (IH serial).
    destruct (pass_items rest serial) as [[[rest1 n1] t1] c1]. simpl in *.
    by rewrite Hsession, IH.
  - destruct (mediaKeys item) as [keys|] eqn:Hkeys.
    + specialize (IH (S serial)).
      destruct (pass_items rest (S serial)) as [[[rest1 n1] t1] c1].
      simpl in *. by rewrite IH.
    + simpl. by rewrite Hsession, Hkeys.
Qed.

(** A second run of the pass leaves the Store, the session counter and the
    trace as the first run left them, and completes as the first run did. *)
Lemma onMediaKeysCreated_again (w : World) :
  _onMediaKeysCreated (_onMediaKeysCreated w).2
  = ((_onMediaKeysCreated w).1, (_onMediaKeysCreated w).2).
Proof.
  rewrite (onMediaKeysCreated_pass w).
  pose proof (pass_items_again (store w) (sessionsCreated w)) as Hagain.
  destruct (pass_items (store w) (sessionsCreated w))
    as [[[items1 serial1] effects1] c1] eqn:Hpass.
  simpl in Hagain. unfold after_pass. simpl.
  rewrite onMediaKeysCreated_pass. unfold store at 1. simpl.
  rewrite Hagain. unfold after_pass, set_mediaKeysList. simpl.
  by rewrite app_nil_r.
Qed.

(** *** An entry without a module *)

(** Two manifest-parsed events, both access requests granted: two entries,
    neither with a module yet. *)
Definition two_entries : World :=
  run constructor
    [MANIFEST_PARSED [{| audioCodec := "mp4a.40.2"; videoCodec := "avc1.4d401f" |}];
     MANIFEST_PARSED [{| audioCodec := "mp4a.40.2"; videoCodec := "avc1.4d401f" |}];
     AccessResolved 0 (AccessHandle 0);
     AccessResolved 1 (AccessHandle 1)].

(** The module of the second entry is created first: the state in which the
    [then] callback calls [this._onMediaKeysCreated()]. *)
Definition second_module_created : World :=
  ((assign (set_mediaKeysList
              (alter (set_item_mediaKeys (Some (MediaKeysHandle 1))) 1));;;
    console Log [VString "Created media-keys:";
                 VMediaKeys (MediaKeysHandle 1)])
     (with_keysRequests (settle 1 Fulfilled) two_entries)).2.

(** C6, divergence of the code: in a Store whose first entry has no module
    yet and whose second entry has a module and no session, the pass throws
    a [TypeError] at the first entry and ends there: the entry without a
    module does cause a failure, and the second entry, module present and
    session absent, gets no session (no [createSession] call is made), where
    the pass as specified records a session on it.  The [catch] callback
    then logs the [TypeError] as a module-creation failure. *)
Theorem pass_aborts_on_absent_module :
  store second_module_created
  = [{| mediaKeys := None;
        mediaKeysSession := None;
        mediaKeySystemAccess := AccessHandle 0 |};
     {| mediaKeys := Some (MediaKeysHandle 1);
        mediaKeysSession := None;
        mediaKeySystemAccess := AccessHandle 1 |}]
  /\ _onMediaKeysCreated second_module_created
     = (Throw (TypeError "Cannot read property 'createSession' of null"),
        second_module_created)
  /\ (ensureSessions_spec (store second_module_created)
                          (sessionsCreated second_module_created)).1
     = [{| mediaKeys := None;
           mediaKeysSession := None;
           mediaKeySystemAccess := AccessHandle 0 |};
        {| mediaKeys := Some (MediaKeysHandle 1);
           mediaKeysSession := Some (SessionHandle (MediaKeysHandle 1) 0);
           mediaKeySystemAccess := AccessHandle 1 |}]
  /\ store (deliver two_entries (MediaKeysResolved 1 (MediaKeysHandle 1)))
     = store second_module_created
  /\ List.filter is_createSession
       (trace (deliver two_entries (MediaKeysResolved 1 (MediaKeysHandle 1))))
     = []
  /\ last (trace (deliver two_entries
                     (MediaKeysResolved 1 (MediaKeysHandle 1))))
     = Some (Console ErrorLevel
               [VString "Failed to create media-keys:";
                VError (TypeError
                          "Cannot read property 'createSession' of null")]).
Proof. vm_compute. by repeat split. Qed.

(** C9, divergence of the code: in the same Store (an entry with neither
    module nor session) the first run of the pass throws, and the second
    run, with no module added in between, throws the same [TypeError]
    again: the Store and the sessions are as the first run left them, but
    the second run does raise an error. *)
Theorem second_pass_raises_again :
  (_onMediaKeysCreated second_module_created).1
  = Throw (TypeError "Cannot read property 'createSession' of null")
  /\ (_onMediaKeysCreated (_onMediaKeysCreated second_module_created).2).1
     = Throw (TypeError "Cannot read property 'createSession' of null")
  /\ store (_onMediaKeysCreated (_onMediaKeysCreated second_module_created).2).2
     = store (_onMediaKeysCreated second_module_created).2
  /\ sessionsCreated
       (_onMediaKeysCreated (_onMediaKeysCreated second_module_created).2).2
     = sessionsCreated (_onMediaKeysCreated second_module_created).2.
Proof. vm_compute. by repeat split. Qed.

End Sessions.

(** * Further properties of the controller *)

(** ** What one event does to the state *)

Module Steps.

Definition count (f : Effect -> bool) (t : list Effect) : nat :=
  length (List.filter f t).

Lemma count_app (f : Effect -> bool) (t1 t2 : list Effect) :
  count f (t1 ++ t2) = count f t1 + count f t2.
Proof. unfold count. by rewrite List.filter_app, length_app. Qed.

Definition has_session (item : MediaKeysListItem) : bool :=
  match mediaKeysSession item with
  | Some _ => true
  | None => false
  end.

(** The effects of one ['encrypted'] listener call and the flag it leaves,
    read off [_onMediaEncrypted] and [_attemptSetMediaKeys]. *)
Definition encrypted_outcome (c : EMEController) : list Effect * bool :=
  if _hasSetMediaKeys c then
    ([Console Log [VString "Media is encrypted!"]], true)
  else
    match _mediaKeysList c !! 0 with
    | None =>
        ([Console Log [VString "Media is encrypted!"];
          Binder.no_access_error], false)
    | Some item =>
        match _media c with
        | None =>
            ([Console Log [VString "Media is encrypted!"];
              Uncaught
                (TypeError "Cannot read property 'setMediaKeys' of null")],
             false)
        | Some media =>
            ([Console Log [VString "Media is encrypted!"];
              Host (setMediaKeys media (mediaKeys item));
              Console Log [VString "Media keys set!"]], true)
        end
    end.

Lemma onMediaEncrypted_run (w : World) :
  run_callback _onMediaEncrypted w
  = {| eme := {| _mediaKeysList := _mediaKeysList (eme w);
                 _media := _media (eme w);
                 _hasSetMediaKeys := (encrypted_outcome (eme w)).2;
                 _isMediaEncrypted := true |};
       accessRequests := accessRequests w;
       keysRequests := keysRequests w;
       encryptedListeners := encryptedListeners w;
       sessionsCreated := sessionsCreated w;
       trace := trace w ++ (encrypted_outcome (eme w)).1 |}.
Proof.
  destruct w as [[items m flag enc] ar kr ls n t].
  unfold encrypted_outcome. unfold_methods. simpl.
  destruct flag; simpl; [done|].
  destruct items as [|item rest]; simpl; [by rewrite <- app_assoc|].
  destruct m as [media|]; simpl; by rewrite <- !app_assoc.
Qed.

(** The world after a [createMediaKeys] promise is fulfilled, in terms of
    the pass over the items. *)
Definition keys_resolved_world
    (w : World) (p item : nat) (keys : MediaKeys) : World :=
  let items1 := alter (set_item_mediaKeys (Some keys)) item (store w) in
  let '(items2, serial2, effects, c) :=
    Sessions.pass_items items1 (sessionsCreated w) in
  {| eme := set_mediaKeysList (fun _ => items2) (eme w);
     accessRequests := accessRequests w;
     keysRequests := settle p Fulfilled (keysRequests w);
     encryptedListeners := encryptedListeners w;
     sessionsCreated := serial2;
     trace := trace w
              ++ [Console Log [VString "Created media-keys:"; VMediaKeys keys]]
              ++ effects
              ++ match c with
                 | Normal _ => []
                 | Throw e =>
                     [Console ErrorLevel
                        [VString "Failed to create media-keys:"; VError e]]
                 end |}.

Lemma deliver_keys_resolved (w : World) (p item : nat) (keys : MediaKeys) :
  keysRequests w !! p = Some (item, Pending) ->
  deliver w (MediaKeysResolved p keys) = keys_resolved_world w p item keys.
Proof.
  intros Hp. simpl. rewrite Hp.
  unfold then_catch, keys_onFulfilled, bind at 1 2.
  unfold assign at 1, console at 1, emit at 1.
  rewrite Sessions.onMediaKeysCreated_pass.
  unfold keys_resolved_world.
  destruct w as [[items m flag enc] ar kr ls n t]. unfold store. simpl.
  destruct (Sessions.pass_items _ n) as [[[items2 serial2] effects] c].
  unfold Sessions.after_pass. simpl.
  destruct c as [[]|e]; simpl.
  - by rewrite app_nil_r, <- app_assoc.
  - unfold_methods. simpl. by rewrite <- !app_assoc.
Qed.

Lemma deliver_access_resolved
    (w : World) (p : nat) (keySystem : string) (access : MediaKeySystemAccess) :
  accessRequests w !! p = Some (keySystem, Pending) ->
  deliver w (AccessResolved p access)
  = {| eme := set_mediaKeysList (fun l => l ++ [Store.new_item access]) (eme w);
       accessRequests := settle p Fulfilled (accessRequests w);
       keysRequests := keysRequests w ++ [(length (store w), Pending)];
       encryptedListeners := encryptedListeners w;
       sessionsCreated := sessionsCreated w;
       trace := trace w
                ++ [Host (getConfiguration access);
                    Console Log
                      [VString "Key system access obtained with config:";
                       VAccessConfiguration access];
                    Host (createMediaKeys access);
                    Console Log [VString "Obtained key-system access for:";
                                 VString keySystem]] |}.
Proof.
  intros Hp. simpl. rewrite Hp. unfold then_catch.
  rewrite Store.onAccessObtained_run.
  by destruct w as [[items m flag enc] ar kr ls n t].
Qed.

Lemma deliver_manifest_parsed (w : World) (levels : list Level) :
  deliver w (MANIFEST_PARSED levels)
  = {| eme := eme w;
       accessRequests := accessRequests w ++ [(KeySystems.WIDEVINE, Pending)];
       keysRequests := keysRequests w;
       encryptedListeners := encryptedListeners w;
       sessionsCreated := sessionsCreated w;
       trace := trace w
                ++ [Console Log [VString "onManifestParsed:"; VLevels levels];
                    Console Log [VCodecs (map videoCodec levels)];
                    Console Log
                      [VConfigs [Catalog.widevine_config
                                   (map videoCodec levels)]];
                    Host (requestMediaKeySystemAccess KeySystems.WIDEVINE
                            [Catalog.widevine_config
                               (map videoCodec levels)])] |}.
Proof.
  simpl. unfold onManifestParsed, run_callback, bind at 1 2, console, emit.
  rewrite Negotiator.attempt_widevine.
  destruct w as [[items m flag enc] ar kr ls n t]. simpl.
  unfold with_accessRequests, with_trace. simpl. by rewrite <- !app_assoc.
Qed.

End Steps.

(** ** What the session-creation pass does to the items *)

Module Pass.

(** An item before and after the pass: module and access handle as they
    were; the session as it was, or created from the item's module where
    there was none. *)
Definition item_after (item item' : MediaKeysListItem) : Prop :=
  mediaKeys item' = mediaKeys item
  /\ mediaKeySystemAccess item' = mediaKeySystemAccess item
  /\ (mediaKeysSession item' = mediaKeysSession item
      \/ exists keys serial,
           mediaKeys item = Some keys
           /\ mediaKeysSession item = None
           /\ mediaKeysSession item' = Some (SessionHandle keys serial)).

Lemma item_after_refl (item : MediaKeysListItem) : item_after item item.
Proof. split; [done|]. split; [done|]. by left. Qed.

Lemma items_after_refl (items : list MediaKeysListItem) :
  Forall2 item_after items items.
Proof. induction items; constructor; [apply item_after_refl|done]. Qed.

Lemma pass_items_after (items : list MediaKeysListItem) (serial : nat) :
  Forall2 item_after items (Sessions.pass_items items serial).1.1.1.
Proof.
  revert serial. induction items as [|item rest IH]; intros serial;
    [constructor|].
  simpl.
  destruct (mediaKeysSession item) as [session|] eqn:Hsession.
  - specialize (IH serial).
    destruct (Sessions.pass_items rest serial) as [[[rest1 n1] t1] c1].
    constructor; [apply item_after_refl|done].
  - destruct (mediaKeys item) as [keys|] eqn:Hkeys.
    + specialize (IH (S serial)).
      destruct (Sessions.pass_items rest (S serial)) as [[[rest1 n1] t1] c1].
      constructor; [|done].
      split; [done|]. split; [done|]. right. by exists keys, serial.
    + simpl. apply items_after_refl.
Qed.

(** The effects the pass can produce. *)
Definition pass_effect (e : Effect) : bool :=
  match e with
  | Host (createSession _) => true
  | Console Log _ => true
  | _ => false
  end.

Lemma pass_items_counts (items : list MediaKeysListItem) (serial : nat) :
  length (List.filter Steps.has_session (Sessions.pass_items items serial).1.1.1)
    + serial
  = length (List.filter Steps.has_session items)
    + (Sessions.pass_items items serial).1.1.2
  /\ Steps.count is_createSession (Sessions.pass_items items serial).1.2
       + serial
     = (Sessions.pass_items items serial).1.1.2
  /\ forallb pass_effect (Sessions.pass_items items serial).1.2 = true.
Proof.
  revert serial. induction items as [|item rest IH]; intros serial.
  - simpl. by repeat split.
  - simpl. unfold Steps.has_session at 2.
    destruct (mediaKeysSession item) as [session|] eqn:Hsession.
    + specialize (IH serial).
      destruct (Sessions.pass_items rest serial) as [[[rest1 n1] t1] c1].
      simpl in *. unfold Steps.has_session at 1. rewrite Hsession. simpl.
      destruct IH as (H1 & H2 & H3). repeat split; try done. lia.
    + destruct (mediaKeys item) as [keys|] eqn:Hkeys.
      * specialize (IH (S serial)).
        destruct (Sessions.pass_items rest (S serial)) as [[[rest1 n1] t1] c1].
        simpl in *. unfold Steps.count in *. simpl.
        destruct IH as (H1 & H2 & H3). repeat split; try done; lia.
      * simpl. unfold Steps.has_session at 1. rewrite Hsession.
        by repeat split.
Qed.

Lemma count_pass_effects (f : Effect -> bool) (t : list Effect) :
  (forall e, pass_effect e = true -> f e = false) ->
  forallb pass_effect t = true ->
  Steps.count f t = 0.
Proof.
  intros Hf. induction t as [|e t IH]; [done|].
  simpl. intros [He Ht]%andb_true_iff.
  unfold Steps.count in *. simpl. rewrite (Hf e He). by apply IH.
Qed.

Lemma pass_items_length (items : list MediaKeysListItem) (serial : nat) :
  length (Sessions.pass_items items serial).1.1.1 = length items.
Proof.
  symmetry. eapply Forall2_length. apply pass_items_after.
Qed.

End Pass.

(** ** Invariants of the negotiation state *)

Module Lifecycle.

Definition is_createMediaKeys (e : Effect) : bool :=
  match e with
  | Host (createMediaKeys _) => true
  | _ => false
  end.

Definition is_requestAccess (e : Effect) : bool :=
  match e with
  | Host (requestMediaKeySystemAccess _ _) => true
  | _ => false
  end.

Definition is_uncaught (e : Effect) : bool :=
  match e with
  | Uncaught _ => true
  | _ => false
  end.

(** A session recorded on an item was created from the module recorded on
    that item. *)
Definition session_from_module (item : MediaKeysListItem) : Prop :=
  forall session,
    mediaKeysSession item = Some session ->
    exists keys serial,
      mediaKeys item = Some keys /\ session = SessionHandle keys serial.

(** What holds in every state the controller can be in. *)
Record consistent (w : World) : Prop := {
  one_request_per_entry :
    (keysRequests w).*1 = seq 0 (length (store w));
  pending_no_module :
    forall p i item,
      keysRequests w !! p = Some (i, Pending) ->
      store w !! i = Some item ->
      mediaKeys item = None;
  sessions_from_modules : Forall session_from_module (store w);
  listener_has_media :
    encryptedListeners w <> [] -> _media (eme w) <> None;
  sessions_counted :
    length (List.filter Steps.has_session (store w)) = sessionsCreated w;
  createSession_counted :
    Steps.count is_createSession (trace w) = sessionsCreated w;
  createMediaKeys_counted :
    Steps.count is_createMediaKeys (trace w) = length (store w);
  requests_counted :
    Steps.count is_requestAccess (trace w) = length (accessRequests w);
  nothing_uncaught : Steps.count is_uncaught (trace w) = 0
}.

Lemma consistent_constructor : consistent constructor.
Proof.
  split; done.
Qed.

(** A step that only appends console lines to the trace. *)
Lemma consistent_log (w : World) (level : ConsoleLevel) (args : list JsValue) :
  consistent w ->
  consistent (with_trace (fun t => t ++ [Console level args]) w).
Proof.
  intros [H1 H2 H3 H4 H5 H6 H7 H8 H9].
  split; unfold store, Steps.count in *; simpl;
    rewrite ?List.filter_app, ?length_app; simpl; try done; lia.
Qed.

Lemma settle_fst {A} (p : nat) (s : PromiseState)
    (l : list (A * PromiseState)) :
  (settle p s l).*1 = l.*1.
Proof.
  unfold settle. apply list_eq. intros i. rewrite !list_lookup_fmap.
  destruct (decide (p = i)) as [->|Hne].
  - rewrite list_lookup_alter_eq. by destruct (l !! i).
  - by rewrite list_lookup_alter_ne.
Qed.

Lemma settle_pending {A} (p q : nat) (s : PromiseState) (i : A)
    (l : list (A * PromiseState)) :
  s <> Pending ->
  settle p s l !! q = Some (i, Pending) ->
  q <> p /\ l !! q = Some (i, Pending).
Proof.
  intros Hs Hq. unfold settle in Hq.
  destruct (decide (p = q)) as [->|Hne].
  - rewrite list_lookup_alter_eq in Hq.
    destruct (l !! q) as [[i' s']|]; simpl in Hq; [|done].
    injection Hq as _ Hq. by destruct Hs.
  - rewrite list_lookup_alter_ne in Hq by done. split; [congruence|done].
Qed.

Lemma consistent_settle_keys (w : World) (p : nat) (s : PromiseState) :
  s <> Pending ->
  consistent w ->
  consistent (with_keysRequests (settle p s) w).
Proof.
  intros Hs [H1 H2 H3 H4 H5 H6 H7 H8 H9].
  split; unfold store in *; simpl; try done.
  - by rewrite settle_fst.
  - intros q i item Hq Hi.
    destruct (settle_pending p q s i _ Hs Hq) as [_ Hq'].
    by apply (H2 q i item).
Qed.

Lemma consistent_settle_access (w : World) (p : nat) (s : PromiseState) :
  consistent w ->
  consistent (with_accessRequests (settle p s) w).
Proof.
  intros [H1 H2 H3 H4 H5 H6 H7 H8 H9].
  split; unfold store in *; simpl; try done.
  unfold settle. by rewrite length_alter.
Qed.

Lemma count_none (allowed f : Effect -> bool) (t : list Effect) :
  (forall e, allowed e = true -> f e = false) ->
  forallb allowed t = true ->
  Steps.count f t = 0.
Proof.
  intros Hf. induction t as [|e t IH]; [done|].
  simpl. intros [He Ht]%andb_true_iff.
  unfold Steps.count in *. simpl. rewrite (Hf e He). by apply IH.
Qed.

Lemma has_session_alter_mediaKeys
    (keys : option MediaKeys) (i : nat) (items : list MediaKeysListItem) :
  length (List.filter Steps.has_session
            (alter (set_item_mediaKeys keys) i items))
  = length (List.filter Steps.has_session items).
Proof.
  revert i. induction items as [|item rest IH]; intros [|i]; try done.
  - by destruct item as [k [s|] a].
  - specialize (IH i).
    change (alter (set_item_mediaKeys keys) (S i) (item :: rest))
      with (item :: alter (set_item_mediaKeys keys) i rest).
    cbn [List.filter].
    destruct (Steps.has_session item); cbn [length]; by rewrite IH.
Qed.

Lemma session_from_module_after (item item' : MediaKeysListItem) :
  session_from_module item -> Pass.item_after item item' ->
  session_from_module item'.
Proof.
  intros Hitem (Hkeys & _ & [Hsame | (keys & serial & Hk & _ & Hs)])
    session Hsession.
  - rewrite Hsame in Hsession. rewrite Hkeys. by apply Hitem.
  - rewrite Hs in Hsession. injection Hsession as <-.
    exists keys, serial. by rewrite Hkeys.
Qed.

(** The position of a request in [keysRequests] is the position of its
    item in the Store. *)
Lemma request_position (w : World) (p i : nat) (s : PromiseState) :
  consistent w ->
  keysRequests w !! p = Some (i, s) ->
  i = p /\ p < length (store w).
Proof.
  intros Hc Hp.
  assert (Hfst : (keysRequests w).*1 !! p = Some i)
    by (by rewrite list_lookup_fmap, Hp).
  rewrite (one_request_per_entry w Hc) in Hfst.
  apply lookup_seq in Hfst. simpl in Hfst. by destruct Hfst.
Qed.

Lemma consistent_keys_resolved (w : World) (p item : nat) (keys : MediaKeys) :
  consistent w ->
  keysRequests w !! p = Some (item, Pending) ->
  consistent (Steps.keys_resolved_world w p item keys).
Proof.
  intros Hc Hp.
  destruct (request_position w p item Pending Hc Hp) as [-> Hlt].
  pose proof Hc as [H1 H2 H3 H4 H5 H6 H7 H8 H9].
  unfold Steps.keys_resolved_world.
  set (items1 := alter (set_item_mediaKeys (Some keys)) p (store w)).
  pose proof (Pass.pass_items_after items1 (sessionsCreated w)) as Hafter.
  pose proof (Pass.pass_items_counts items1 (sessionsCreated w))
    as (Hsessions & Hcreated & Heffects).
  assert (Hlen1 : length items1 = length (store w))
    by (subst items1; apply length_alter).
  assert (Hsess1 : length (List.filter Steps.has_session items1)
                   = sessionsCreated w).
  { subst items1. by rewrite has_session_alter_mediaKeys. }
  assert (Hsfm1 : Forall session_from_module items1).
  { subst items1. apply Forall_alter; [done|].
    intros x Hx Hsfm session Hsession. simpl in Hsession.
    destruct (Hsfm session Hsession) as (k & n & Hk & _).
    rewrite (H2 p p x Hp Hx) in Hk. done. }
  destruct (Sessions.pass_items items1 (sessionsCreated w))
    as [[[items2 serial2] effects] c].
  simpl in Hafter, Hsessions, Hcreated, Heffects.
  assert (Hlen2 : length items2 = length (store w))
    by (rewrite <- Hlen1; symmetry; by eapply Forall2_length).
  assert (Htail : forall f,
            (forall level args, f (Console level args) = false) ->
            Steps.count f
              match c with
              | Normal _ => []
              | Throw e =>
                  [Console ErrorLevel
                     [VString "Failed to create media-keys:"; VError e]]
              end = 0).
  { intros f Hf. destruct c as [[]|e]; [done|].
    unfold Steps.count. simpl. by rewrite Hf. }
  split; unfold store in *;
    cbn [eme trace accessRequests keysRequests encryptedListeners
         sessionsCreated _mediaKeysList _media set_mediaKeysList].
  - by rewrite settle_fst, Hlen2.
  - intros q i item2 Hq Hi.
    destruct (settle_pending p q Fulfilled i _ ltac:(done) Hq) as [Hne Hq'].
    destruct (request_position w q i Pending Hc Hq') as [-> _].
    destruct (Forall2_lookup_r _ _ _ _ _ Hafter Hi) as (item1 & Hi1 & Hrel).
    subst items1. rewrite list_lookup_alter_ne in Hi1 by done.
    destruct Hrel as [-> _]. by apply (H2 q q item1).
  - eapply Forall2_Forall_r; [exact Hafter|].
    eapply Forall_impl; [exact Hsfm1|].
    intros item1 Hitem1 item2 Hrel.
    by apply (session_from_module_after item1).
  - done.
  - lia.
  - rewrite !Steps.count_app, Htail by done.
    unfold Steps.count at 2. simpl. lia.
  - rewrite !Steps.count_app, Htail by done.
    rewrite (count_none Pass.pass_effect _ effects) by
      (done || by intros [[] ?|[]|]).
    unfold Steps.count at 2. simpl. lia.
  - rewrite !Steps.count_app, Htail by done.
    rewrite (count_none Pass.pass_effect _ effects) by
      (done || by intros [[] ?|[]|]).
    unfold Steps.count at 2. simpl. lia.
  - rewrite !Steps.count_app, Htail by done.
    rewrite (count_none Pass.pass_effect _ effects) by
      (done || by intros [[] ?|[]|]).
    unfold Steps.count at 2. simpl. lia.
Qed.

(** The effects of a listener call when the sink is known. *)
Definition binder_effect (e : Effect) : bool :=
  match e with
  | Console _ _ => true
  | Host (setMediaKeys _ _) => true
  | _ => false
  end.

Lemma encrypted_outcome_effects (c : EMEController) :
  _media c <> None ->
  forallb binder_effect (Steps.encrypted_outcome c).1 = true.
Proof.
  intros Hmedia. unfold Steps.encrypted_outcome.
  destruct (_hasSetMediaKeys c); [done|].
  destruct (_mediaKeysList c !! 0); [|done].
  by destruct (_media c).
Qed.

Lemma consistent_onMediaEncrypted (w : World) :
  consistent w ->
  encryptedListeners w <> [] ->
  consistent (run_callback _onMediaEncrypted w).
Proof.
  intros [H1 H2 H3 H4 H5 H6 H7 H8 H9] Hls.
  rewrite Steps.onMediaEncrypted_run.
  pose proof (encrypted_outcome_effects (eme w) (H4 Hls)) as Heffects.
  split; unfold store in *;
    cbn [eme trace accessRequests keysRequests encryptedListeners
         sessionsCreated _mediaKeysList _media];
    try done;
    rewrite Steps.count_app,
      (count_none binder_effect _ (Steps.encrypted_outcome (eme w)).1) by
      (exact Heffects || by intros [level args|[]|e]);
    lia.
Qed.

Lemma consistent_fire_encrypted
    (media : HTMLMediaElement) (listeners : list HTMLMediaElement) (w : World) :
  consistent w ->
  (listeners <> [] -> encryptedListeners w <> []) ->
  consistent (fire_encrypted media listeners w).
Proof.
  revert w. induction listeners as [|[target] rest IH]; intros w Hc Hls;
    [done|].
  simpl. destruct media as [id].
  assert (Hw : encryptedListeners w <> []) by (by apply Hls).
  destruct (Nat.eqb id target).
  - apply IH; [by apply consistent_onMediaEncrypted|].
    intros _. by rewrite Steps.onMediaEncrypted_run.
  - by apply IH.
Qed.

Lemma deliver_consistent (w : World) (ev : Event) :
  consistent w -> consistent (deliver w ev).
Proof.
  intros Hc.
  destruct ev as [|media|levels|data|p access|p err|p keys|p err|media].
  - exact (consistent_log w Log _ Hc).
  - destruct Hc as [H1 H2 H3 H4 H5 H6 H7 H8 H9].
    split; unfold store, Steps.count in *; simpl; try done;
      rewrite <- ?app_assoc, ?List.filter_app, ?length_app; simpl; lia.
  - rewrite Steps.deliver_manifest_parsed.
    destruct Hc as [H1 H2 H3 H4 H5 H6 H7 H8 H9].
    split; unfold store, Steps.count in *; simpl; try done;
      rewrite ?List.filter_app, ?length_app; simpl; lia.
  - exact (consistent_log w Log _ Hc).
  - destruct (accessRequests w !! p) as [[keySystem st]|] eqn:Hp;
      [|simpl; by rewrite Hp].
    destruct st; try (simpl; by rewrite Hp).
    rewrite (Steps.deliver_access_resolved w p keySystem access Hp).
    destruct Hc as [H1 H2 H3 H4 H5 H6 H7 H8 H9].
    split; unfold store, Steps.count in *; simpl; try done.
    + rewrite fmap_app, H1, length_app. simpl. by rewrite seq_app.
    + intros q i item Hq Hi.
      assert (Hlen : length (keysRequests w) = length (_mediaKeysList (eme w))).
      { rewrite <- (length_fmap fst), H1. apply length_seq. }
      destruct (decide (q < length (keysRequests w))) as [Hlt|Hge].
      * rewrite lookup_app_l in Hq by done.
        assert (Hiq : i = q /\ q < length (_mediaKeysList (eme w))).
        { assert (Hfst : (keysRequests w).*1 !! q = Some i)
            by (by rewrite list_lookup_fmap, Hq).
          rewrite H1 in Hfst. apply lookup_seq in Hfst. by destruct Hfst. }
        destruct Hiq as [-> Hq2].
        rewrite lookup_app_l in Hi by done. by apply (H2 q q item).
      * rewrite lookup_app_r in Hq by lia.
        destruct (q - length (keysRequests w)) as [|q']; [|done].
        simpl in Hq. injection Hq as <-.
        rewrite list_lookup_middle in Hi by done. by injection Hi as <-.
    + apply Forall_app. split; [done|].
      apply Forall_singleton. by intros session Hsession.
    + rewrite List.filter_app, length_app. simpl. lia.
    + rewrite List.filter_app, length_app. simpl. lia.
    + rewrite List.filter_app, !length_app. simpl. lia.
    + unfold settle. rewrite List.filter_app, length_app, length_alter.
      simpl. lia.
    + rewrite List.filter_app, length_app. simpl. lia.
  - simpl. destruct (accessRequests w !! p) as [[keySystem st]|] eqn:Hp;
      [|done].
    destruct st; try done.
    exact (consistent_log _ ErrorLevel _
             (consistent_settle_access w p Rejected Hc)).
  - destruct (keysRequests w !! p) as [[item st]|] eqn:Hp;
      [|simpl; by rewrite Hp].
    destruct st; try (simpl; by rewrite Hp).
    rewrite (Steps.deliver_keys_resolved w p item keys Hp).
    by apply consistent_keys_resolved.
  - simpl. destruct (keysRequests w !! p) as [[item st]|] eqn:Hp; [|done].
    destruct st; try done.
    exact (consistent_log _ ErrorLevel _
             (consistent_settle_keys w p Rejected ltac:(done) Hc)).
  - simpl. by apply consistent_fire_encrypted.
Qed.

Lemma run_consistent (evs : list Event) (w : World) :
  consistent w -> consistent (run w evs).
Proof.
  revert w. induction evs as [|ev evs IH]; intros w Hc; [done|].
  change (run w (ev :: evs)) with (run (deliver w ev) evs).
  by apply IH, deliver_consistent.
Qed.

End Lifecycle.

(** ** How entries evolve *)

Module Growth.

(** An entry later in the history: the same access handle; the module and
    the session, once present, as they were. *)
Definition item_grows (item item' : MediaKeysListItem) : Prop :=
  mediaKeySystemAccess item' = mediaKeySystemAccess item
  /\ (forall keys, mediaKeys item = Some keys -> mediaKeys item' = Some keys)
  /\ (forall session,
        mediaKeysSession item = Some session ->
        mediaKeysSession item' = Some session).

(** Every entry is still there, at its position. *)
Definition store_grows (items items' : list MediaKeysListItem) : Prop :=
  forall i item,
    items !! i = Some item ->
    exists item', items' !! i = Some item' /\ item_grows item item'.

Lemma item_grows_refl (item : MediaKeysListItem) : item_grows item item.
Proof. by repeat split. Qed.

Lemma store_grows_refl (items : list MediaKeysListItem) :
  store_grows items items.
Proof. intros i item Hi. exists item. split; [done|apply item_grows_refl]. Qed.

Lemma store_grows_trans (l1 l2 l3 : list MediaKeysListItem) :
  store_grows l1 l2 -> store_grows l2 l3 -> store_grows l1 l3.
Proof.
  intros H12 H23 i item Hi.
  destruct (H12 i item Hi) as (item2 & Hi2 & Ha & Hk & Hs).
  destruct (H23 i item2 Hi2) as (item3 & Hi3 & Ha' & Hk' & Hs').
  exists item3. split; [done|]. split; [congruence|]. split.
  - intros keys Hkeys. by apply Hk', Hk.
  - intros session Hsession. by apply Hs', Hs.
Qed.

Lemma item_after_grows (item item' : MediaKeysListItem) :
  Pass.item_after item item' -> item_grows item item'.
Proof.
  intros (Hk & Ha & [Hs | (keys & serial & _ & Hnone & _)]).
  - split; [done|]. split; intros x Hx; congruence.
  - split; [done|]. split; intros x Hx; congruence.
Qed.

Lemma mediaKeys_after (items items' : list MediaKeysListItem) :
  Forall2 Pass.item_after items items' ->
  mediaKeys <$> items' = mediaKeys <$> items.
Proof.
  induction 1 as [|item item' items items' (Hk & _) _ IH]; [done|].
  rewrite !fmap_cons. by f_equal.
Qed.

Lemma access_after (items items' : list MediaKeysListItem) :
  Forall2 Pass.item_after items items' ->
  mediaKeySystemAccess <$> items' = mediaKeySystemAccess <$> items.
Proof.
  induction 1 as [|item item' items items' (_ & Ha & _) _ IH]; [done|].
  rewrite !fmap_cons. by f_equal.
Qed.

Lemma deliver_store_grows (w : World) (ev : Event) :
  Lifecycle.consistent w ->
  store_grows (store w) (store (deliver w ev)).
Proof.
  intros Hc.
  destruct ev as [|media|levels|data|p access|p err|p keys|p err|media].
  - apply store_grows_refl.
  - apply store_grows_refl.
  - rewrite Steps.deliver_manifest_parsed. apply store_grows_refl.
  - apply store_grows_refl.
  - destruct (accessRequests w !! p) as [[keySystem st]|] eqn:Hp;
      [|simpl; rewrite Hp; apply store_grows_refl].
    destruct st; try (simpl; rewrite Hp; apply store_grows_refl).
    rewrite (Steps.deliver_access_resolved w p keySystem access Hp).
    unfold store. simpl. intros i item Hi. exists item.
    split; [|apply item_grows_refl].
    rewrite lookup_app_l; [done|]. by eapply lookup_lt_Some.
  - simpl. destruct (accessRequests w !! p) as [[keySystem []]|];
      apply store_grows_refl.
  - destruct (keysRequests w !! p) as [[item st]|] eqn:Hp;
      [|simpl; rewrite Hp; apply store_grows_refl].
    destruct st; try (simpl; rewrite Hp; apply store_grows_refl).
    rewrite (Steps.deliver_keys_resolved w p item keys Hp).
    unfold Steps.keys_resolved_world.
    pose proof (Pass.pass_items_after
                  (alter (set_item_mediaKeys (Some keys)) item (store w))
                  (sessionsCreated w)) as Hafter.
    destruct (Sessions.pass_items _ (sessionsCreated w))
      as [[[items2 serial2] effects] c].
    simpl in Hafter. unfold store at 2. simpl.
    intros i x Hi.
    assert (Hx1 : exists x1,
              alter (set_item_mediaKeys (Some keys)) item (store w) !! i
              = Some x1 /\ item_grows x x1).
    { destruct (decide (item = i)) as [->|Hne].
      - rewrite list_lookup_alter_eq, Hi. simpl. eexists. split; [done|].
        split; [done|]. split; [|done].
        intros k Hk.
        by rewrite (Lifecycle.pending_no_module w Hc p i x Hp Hi) in Hk.
      - rewrite list_lookup_alter_ne by done. exists x.
        split; [done|apply item_grows_refl]. }
    destruct Hx1 as (x1 & Hx1 & Hg1).
    destruct (Forall2_lookup_l _ _ _ _ _ Hafter Hx1) as (x2 & Hx2 & Hrel).
    exists x2. split; [done|].
    apply item_after_grows in Hrel.
    destruct Hg1 as (Ha1 & Hk1 & Hs1). destruct Hrel as (Ha2 & Hk2 & Hs2).
    split; [congruence|]. split.
    + intros k Hk. by apply Hk2, Hk1.
    + intros s Hs. by apply Hs2, Hs1.
  - simpl. destruct (keysRequests w !! p) as [[item []]|];
      apply store_grows_refl.
  - simpl.
    destruct (Store.fire_encrypted_negotiation media (encryptedListeners w) w)
      as [_ ->].
    apply store_grows_refl.
Qed.

Lemma run_store_grows (evs : list Event) (w : World) :
  Lifecycle.consistent w ->
  store_grows (store w) (store (run w evs)).
Proof.
  revert w. induction evs as [|ev evs IH]; intros w Hc;
    [apply store_grows_refl|].
  change (run w (ev :: evs)) with (run (deliver w ev) evs).
  eapply store_grows_trans; [by apply deliver_store_grows|].
  by apply IH, Lifecycle.deliver_consistent.
Qed.

End Growth.

(** ** When the binder acts *)

Module Binding.

Definition is_encrypted (ev : Event) : bool :=
  match ev with
  | Encrypted _ => true
  | _ => false
  end.

Definition is_access_resolved (ev : Event) : bool :=
  match ev with
  | AccessResolved _ _ => true
  | _ => false
  end.

Lemma attach_calls_app (w : World) (es : list Effect) :
  attach_calls (with_trace (fun t => t ++ es) w)
  = attach_calls w ++ List.filter is_attach es.
Proof. unfold attach_calls. simpl. apply List.filter_app. Qed.

(** Any event other than ['encrypted'] leaves the flag and the attach
    calls alone. *)
Lemma deliver_other (w : World) (ev : Event) :
  is_encrypted ev = false ->
  _hasSetMediaKeys (eme (deliver w ev)) = _hasSetMediaKeys (eme w)
  /\ attach_calls (deliver w ev) = attach_calls w.
Proof.
  intros Hev.
  destruct ev as [|media|levels|data|p access|p err|p keys|p err|media];
    try discriminate Hev.
  - destruct w as [[items m flag enc] ar kr ls n t].
    split; [done|]. unfold attach_calls. simpl.
    rewrite List.filter_app. simpl. by rewrite app_nil_r.
  - destruct w as [[items m flag enc] ar kr ls n t].
    split; [done|]. unfold attach_calls. simpl.
    rewrite <- !app_assoc, List.filter_app. simpl. by rewrite app_nil_r.
  - rewrite Steps.deliver_manifest_parsed. split; [done|].
    unfold attach_calls. simpl. rewrite List.filter_app. simpl.
    by rewrite app_nil_r.
  - destruct w as [[items m flag enc] ar kr ls n t].
    split; [done|]. unfold attach_calls. simpl.
    rewrite List.filter_app. simpl. by rewrite app_nil_r.
  - destruct (accessRequests w !! p) as [[keySystem st]|] eqn:Hp;
      [|simpl; by rewrite Hp].
    destruct st; try (simpl; by rewrite Hp).
    rewrite (Steps.deliver_access_resolved w p keySystem access Hp).
    split; [done|]. unfold attach_calls. simpl.
    rewrite List.filter_app. simpl. by rewrite app_nil_r.
  - simpl. destruct (accessRequests w !! p) as [[keySystem []]|]; try done.
    split; [done|]. unfold attach_calls. simpl.
    rewrite List.filter_app. simpl. by rewrite app_nil_r.
  - simpl. destruct (keysRequests w !! p) as [[item []]|]; try done.
    destruct (Frame.keys_fulfilled_preserved item keys
                (with_keysRequests (settle p Fulfilled) w))
      as (_&_&_&_&Hflag&_&Hcalls).
    split; [exact Hflag|exact Hcalls].
  - simpl. destruct (keysRequests w !! p) as [[item []]|]; try done.
    split; [done|]. unfold attach_calls. simpl.
    rewrite List.filter_app. simpl. by rewrite app_nil_r.
Qed.

Lemma run_other (evs : list Event) (w : World) :
  forallb (fun ev => negb (is_encrypted ev)) evs = true ->
  _hasSetMediaKeys (eme (run w evs)) = _hasSetMediaKeys (eme w)
  /\ attach_calls (run w evs) = attach_calls w.
Proof.
  revert w. induction evs as [|ev evs IH]; intros w Hevs; [done|].
  simpl in Hevs. apply andb_true_iff in Hevs as [Hev Hevs].
  change (run w (ev :: evs)) with (run (deliver w ev) evs).
  destruct (IH (deliver w ev) Hevs) as [-> ->].
  apply deliver_other. by destruct (is_encrypted ev).
Qed.

(** Once the flag is set, listener calls attach nothing more. *)
Lemma fire_encrypted_attached
    (media : HTMLMediaElement) (listeners : list HTMLMediaElement) (w : World) :
  _hasSetMediaKeys (eme w) = true ->
  _hasSetMediaKeys (eme (fire_encrypted media listeners w)) = true
  /\ attach_calls (fire_encrypted media listeners w) = attach_calls w.
Proof.
  intros Hflag.
  pose proof (Binder.fire_encrypted_bound_once media listeners w) as H.
  unfold Binder.bound_once in H. by rewrite Hflag in H.
Qed.

(** The first listener registered for the element binds, on the sink
    recorded in [this._media], the module field of the first entry. *)
Lemma fire_encrypted_binds
    (id : nat) (listeners : list HTMLMediaElement) (w : World)
    (sink : HTMLMediaElement) (item : MediaKeysListItem) :
  _hasSetMediaKeys (eme w) = false ->
  _media (eme w) = Some sink ->
  store w !! 0 = Some item ->
  MediaElement id ∈ listeners ->
  _hasSetMediaKeys (eme (fire_encrypted (MediaElement id) listeners w)) = true
  /\ attach_calls (fire_encrypted (MediaElement id) listeners w)
     = attach_calls w ++ [Host (setMediaKeys sink (mediaKeys item))].
Proof.
  intros Hflag Hmedia Hitem Hin.
  induction listeners as [|[target] rest IH]; [by apply elem_of_nil in Hin|].
  simpl. destruct (Nat.eqb_spec id target) as [->|Hne].
  - set (w1 := run_callback _onMediaEncrypted w).
    assert (Hw1 : _hasSetMediaKeys (eme w1) = true
                  /\ attach_calls w1
                     = attach_calls w
                       ++ [Host (setMediaKeys sink (mediaKeys item))]).
    { subst w1. rewrite Steps.onMediaEncrypted_run.
      unfold attach_calls, Steps.encrypted_outcome. unfold store in Hitem.
      simpl. rewrite Hflag, Hitem, Hmedia. simpl.
      split; [done|]. rewrite List.filter_app. by simpl. }
    destruct Hw1 as [Hflag1 Hcalls1].
    destruct (fire_encrypted_attached (MediaElement target) rest w1 Hflag1)
      as [Hflag2 Hcalls2].
    split; [exact Hflag2|]. by rewrite Hcalls2.
  - apply IH. apply elem_of_cons in Hin as [Heq|Hin]; [|done].
    injection Heq as ->. done.
Qed.

(** Without any entry a listener call attaches nothing. *)
Lemma fire_encrypted_empty_store
    (media : HTMLMediaElement) (listeners : list HTMLMediaElement) (w : World) :
  store w = [] ->
  _hasSetMediaKeys (eme w) = false ->
  store (fire_encrypted media listeners w) = []
  /\ keysRequests (fire_encrypted media listeners w) = keysRequests w
  /\ _hasSetMediaKeys (eme (fire_encrypted media listeners w)) = false
  /\ attach_calls (fire_encrypted media listeners w) = attach_calls w.
Proof.
  revert w. induction listeners as [|[target] rest IH]; intros w Hstore Hflag;
    [done|].
  simpl. destruct media as [id]. destruct (Nat.eqb id target); [|by apply IH].
  set (w1 := run_callback _onMediaEncrypted w).
  assert (Hw1 : store w1 = [] /\ keysRequests w1 = keysRequests w
                /\ _hasSetMediaKeys (eme w1) = false
                /\ attach_calls w1 = attach_calls w).
  { subst w1. rewrite Steps.onMediaEncrypted_run.
    unfold attach_calls, Steps.encrypted_outcome, store in *. simpl.
    rewrite Hflag, Hstore. simpl. repeat split; try done.
    rewrite List.filter_app. simpl. by rewrite app_nil_r. }
  destruct Hw1 as (Hs1 & Hk1 & Hf1 & Hc1).
  destruct (IH w1 Hs1 Hf1) as (Hs2 & Hk2 & Hf2 & Hc2).
  repeat split; congruence.
Qed.

Lemma deliver_no_access (w : World) (ev : Event) :
  is_access_resolved ev = false ->
  store w = [] -> keysRequests w = [] -> _hasSetMediaKeys (eme w) = false ->
  store (deliver w ev) = []
  /\ keysRequests (deliver w ev) = []
  /\ _hasSetMediaKeys (eme (deliver w ev)) = false
  /\ attach_calls (deliver w ev) = attach_calls w.
Proof.
  intros Hev Hstore Hkeys Hflag.
  destruct (is_encrypted ev) eqn:Henc.
  - destruct ev; try discriminate Henc. simpl.
    destruct (fire_encrypted_empty_store media (encryptedListeners w) w
                Hstore Hflag) as (H1 & H2 & H3 & H4).
    repeat split; congruence.
  - destruct (deliver_other w ev Henc) as [Hf Hc].
    split; [|split; [|split; [congruence|done]]].
    + destruct ev as [|media|levels|data|p access|p err|p keys|p err|media];
        try discriminate; try done; simpl; rewrite ?Hkeys; try done.
      by destruct (accessRequests w !! p) as [[keySystem []]|].
    + destruct ev as [|media|levels|data|p access|p err|p keys|p err|media];
        try discriminate; try done; simpl; rewrite ?Hkeys; try done.
      by destruct (accessRequests w !! p) as [[keySystem []]|].
Qed.

End Binding.

(** ** Guarantees over whole histories *)

Module Guarantees.

Lemma reachable_consistent (evs : list Event) :
  Lifecycle.consistent (run constructor evs).
Proof. apply Lifecycle.run_consistent, Lifecycle.consistent_constructor. Qed.

(** The manifest-parsed handler, for every manifest (also one without
    levels) and in every state: it completes normally, logs, and makes one
    capability-access request for ['com.widevine.alpha'] with a single
    configuration whose video capabilities are the levels' video codecs in
    level order and which has no audio capabilities; one pending promise is
    added; the controller's fields and the module requests are untouched. *)
Theorem manifest_parsed_requests_access (levels : list Level) (w : World) :
  (onManifestParsed levels w).1 = Normal tt
  /\ eme (onManifestParsed levels w).2 = eme w
  /\ keysRequests (onManifestParsed levels w).2 = keysRequests w
  /\ accessRequests (onManifestParsed levels w).2
     = accessRequests w ++ [(KeySystems.WIDEVINE, Pending)]
  /\ exists cfg,
       trace (onManifestParsed levels w).2
       = trace w
         ++ [Console Log [VString "onManifestParsed:"; VLevels levels];
             Console Log [VCodecs (map videoCodec levels)];
             Console Log [VConfigs [cfg]];
             Host (requestMediaKeySystemAccess KeySystems.WIDEVINE [cfg])]
       /\ videoCapabilities cfg
          = map (fun level =>
                   {| contentType := videoContentType (videoCodec level) |})
                levels
       /\ audioCapabilities cfg = None.
Proof.
  destruct w as [[items m flag enc] ar kr ls n t].
  unfold onManifestParsed. unfold_methods. simpl.
  repeat split; try done.
  exists (Catalog.widevine_config (map videoCodec levels)).
  rewrite Catalog.createWidevine_eq.
  split; [by rewrite <- !app_assoc|]. split; [|done].
  simpl. by rewrite map_map.
Qed.

(** Over every history from the constructor: one capability-access request
    has been made per manifest-parsed event, and [createMediaKeys] has been
    called exactly once per Store entry, each entry having its one request
    at its own position. *)
Theorem host_calls_follow_negotiation (evs : list Event) :
  Steps.count Lifecycle.is_requestAccess (trace (run constructor evs))
  = length (List.filter is_manifest_parsed evs)
  /\ Steps.count Lifecycle.is_createMediaKeys (trace (run constructor evs))
     = length (store (run constructor evs))
  /\ (keysRequests (run constructor evs)).*1
     = seq 0 (length (store (run constructor evs))).
Proof.
  pose proof (reachable_consistent evs) as Hc.
  assert (Hinit : Store.negotiation_inv constructor).
  { split; [apply Forall_nil_2|reflexivity]. }
  destruct (Store.run_negotiation evs constructor Hinit) as [_ Hreq].
  split; [|split].
  - rewrite (Lifecycle.requests_counted _ Hc). exact Hreq.
  - apply (Lifecycle.createMediaKeys_counted _ Hc).
  - apply (Lifecycle.one_request_per_entry _ Hc).
Qed.

(** Over every history from the constructor: the [createSession] calls,
    the host's session counter and the entries holding a session agree in
    number, so a session is created at most once per entry and every
    session created is recorded. *)
Theorem one_session_per_entry (evs : list Event) :
  Steps.count is_createSession (trace (run constructor evs))
  = length (List.filter Steps.has_session (store (run constructor evs)))
  /\ sessionsCreated (run constructor evs)
     = length (List.filter Steps.has_session (store (run constructor evs)))
  /\ Steps.count is_createSession (trace (run constructor evs))
     <= length (store (run constructor evs)).
Proof.
  pose proof (reachable_consistent evs) as Hc.
  pose proof (Lifecycle.createSession_counted _ Hc) as H1.
  pose proof (Lifecycle.sessions_counted _ Hc) as H2.
  split; [congruence|]. split; [congruence|].
  rewrite H1, <- H2. apply Store.filter_length_le.
Qed.

(** Over every history from the constructor: while the [createMediaKeys]
    request of an entry is pending the entry has neither module nor
    session. *)
Theorem pending_entry_is_bare (evs : list Event) :
  Forall2
    (fun request item =>
       request.2 = Pending ->
       mediaKeys item = None /\ mediaKeysSession item = None)
    (keysRequests (run constructor evs))
    (store (run constructor evs)).
Proof.
  pose proof (reachable_consistent evs) as Hc.
  apply Forall2_same_length_lookup_2.
  - rewrite <- (length_fmap fst), (Lifecycle.one_request_per_entry _ Hc).
    apply length_seq.
  - intros p [i st] item Hp Hitem Hst. simpl in Hst. subst st.
    destruct (Lifecycle.request_position _ p i Pending Hc Hp) as [-> _].
    pose proof (Lifecycle.pending_no_module _ Hc p p item Hp Hitem) as Hk.
    split; [exact Hk|].
    pose proof (Lifecycle.sessions_from_modules _ Hc) as Hsfm.
    rewrite Forall_lookup in Hsfm. specialize (Hsfm p item Hitem).
    destruct (mediaKeysSession item) as [session|] eqn:Hs; [|done].
    destruct (Hsfm session Hs) as (k & n & Hk' & _). congruence.
Qed.

(** Over every history from the constructor: a session recorded on an
    entry was created from the module recorded on that same entry. *)
Theorem session_from_own_module (evs : list Event) :
  Forall
    (fun item =>
       forall session,
         mediaKeysSession item = Some session ->
         exists keys serial,
           mediaKeys item = Some keys /\ session = SessionHandle keys serial)
    (store (run constructor evs)).
Proof.
  exact (Lifecycle.sessions_from_modules _ (reachable_consistent evs)).
Qed.

(** Over every history from the constructor no exception escapes an event
    handler, a promise callback or an ['encrypted'] listener: the
    [TypeError] of the session pass is caught by the promise's [catch], and
    a listener never finds [this._media] null. *)
Theorem no_exception_escapes (evs : list Event) :
  Steps.count Lifecycle.is_uncaught (trace (run constructor evs)) = 0.
Proof.
  exact (Lifecycle.nothing_uncaught _ (reachable_consistent evs)).
Qed.

(** Over every history from the constructor, and whatever follows it: an
    entry stays in the Store at its position, keeps its access handle, and
    keeps its module and its session once they are set. *)
Theorem entries_only_grow (evs1 evs2 : list Event) :
  Growth.store_grows (store (run constructor evs1))
                     (store (run constructor (evs1 ++ evs2))).
Proof.
  unfold run at 2. rewrite fold_left_app.
  apply (Growth.run_store_grows evs2 (run constructor evs1)).
  apply reachable_consistent.
Qed.

(** Fulfilment of a pending [createMediaKeys] promise stores the module on
    the entry the request was issued for and on no other: the modules of
    the Store are the previous ones with that one position set, the access
    handles and the number of entries are unchanged, also when the session
    pass that follows throws. *)
Theorem module_stored_on_own_entry
    (w : World) (p item : nat) (keys : MediaKeys) :
  keysRequests w !! p = Some (item, Pending) ->
  mediaKeys <$> store (deliver w (MediaKeysResolved p keys))
  = alter (fun _ => Some keys) item (mediaKeys <$> store w)
  /\ mediaKeySystemAccess <$> store (deliver w (MediaKeysResolved p keys))
     = mediaKeySystemAccess <$> store w
  /\ length (store (deliver w (MediaKeysResolved p keys)))
     = length (store w).
Proof.
  intros Hp. rewrite (Steps.deliver_keys_resolved w p item keys Hp).
  unfold Steps.keys_resolved_world.
  pose proof (Pass.pass_items_after
                (alter (set_item_mediaKeys (Some keys)) item (store w))
                (sessionsCreated w)) as Hafter.
  destruct (Sessions.pass_items _ (sessionsCreated w))
    as [[[items2 serial2] effects] c].
  simpl in Hafter. unfold store at 1 3 5. simpl.
  split; [|split].
  - rewrite (Growth.mediaKeys_after _ _ Hafter).
    apply (list_fmap_alter mediaKeys (set_item_mediaKeys (Some keys))
             (fun _ => Some keys)).
    by apply Forall_true.
  - rewrite (Growth.access_after _ _ Hafter).
    rewrite (list_fmap_alter mediaKeySystemAccess
               (set_item_mediaKeys (Some keys)) id) by (by apply Forall_true).
    by rewrite list_alter_id.
  - rewrite <- (Forall2_length _ _ _ Hafter). apply length_alter.
Qed.

Lemma module_stored_on_own_entry_witness :
  keysRequests Sessions.two_entries !! 1 = Some (1, Pending)
  /\ mediaKeys <$> store (deliver Sessions.two_entries
                            (MediaKeysResolved 1 (MediaKeysHandle 1)))
     = [None; Some (MediaKeysHandle 1)].
Proof.
  split; [reflexivity|].
  apply (module_stored_on_own_entry
           Sessions.two_entries 1 1 (MediaKeysHandle 1)).
  reflexivity.
Defined.

(** Only the ['encrypted'] notification binds: over a history without that
    event, from any state, the binding flag and the attach calls stay as
    they are; in particular the arrival of a module after a failed
    notification does not attach it. *)
Theorem binding_only_on_notification (w : World) (evs : list Event) :
  forallb (fun ev => negb (Binding.is_encrypted ev)) evs = true ->
  _hasSetMediaKeys (eme (run w evs)) = _hasSetMediaKeys (eme w)
  /\ attach_calls (run w evs) = attach_calls w.
Proof. apply Binding.run_other. Qed.

Lemma binding_only_on_notification_witness :
  _hasSetMediaKeys
    (eme (run (run constructor
                 [MEDIA_ATTACHED (MediaElement 0);
                  Encrypted (MediaElement 0);
                  MANIFEST_PARSED Store.two_levels;
                  AccessResolved 0 (AccessHandle 0)])
              [MediaKeysResolved 0 (MediaKeysHandle 0);
               LEVEL_SWITCHED (LevelSwitchedPayload 1)]))
  = false
  /\ attach_calls
       (run (run constructor
               [MEDIA_ATTACHED (MediaElement 0);
                Encrypted (MediaElement 0);
                MANIFEST_PARSED Store.two_levels;
                AccessResolved 0 (AccessHandle 0)])
            [MediaKeysResolved 0 (MediaKeysHandle 0);
             LEVEL_SWITCHED (LevelSwitchedPayload 1)])
     = [].
Proof.
  apply (binding_only_on_notification
           (run constructor
              [MEDIA_ATTACHED (MediaElement 0);
               Encrypted (MediaElement 0);
               MANIFEST_PARSED Store.two_levels;
               AccessResolved 0 (AccessHandle 0)])
           [MediaKeysResolved 0 (MediaKeysHandle 0);
            LEVEL_SWITCHED (LevelSwitchedPayload 1)]).
  reflexivity.
Defined.

(** A listener is registered for the element with this identity. *)
Definition has_listener (id : nat) (listeners : list HTMLMediaElement) : bool :=
  existsb (fun m => let 'MediaElement target := m in Nat.eqb id target)
          listeners.

(** When an element with a registered listener raises ['encrypted'] while
    the flag is false and the Store is not empty, exactly one attach call is
    made, however many listeners are registered; it is made on the sink
    last recorded by media-attached (which need not be the element that
    raised the event) with the module field of the first entry, and the
    flag becomes true. *)
Theorem binding_targets_recorded_sink
    (w : World) (id : nat) (sink : HTMLMediaElement)
    (item : MediaKeysListItem) :
  _hasSetMediaKeys (eme w) = false ->
  _media (eme w) = Some sink ->
  store w !! 0 = Some item ->
  has_listener id (encryptedListeners w) = true ->
  _hasSetMediaKeys (eme (deliver w (Encrypted (MediaElement id)))) = true
  /\ attach_calls (deliver w (Encrypted (MediaElement id)))
     = attach_calls w ++ [Host (setMediaKeys sink (mediaKeys item))].
Proof.
  intros Hflag Hmedia Hitem Hls. simpl.
  apply Binding.fire_encrypted_binds; try done.
  unfold has_listener in Hls. apply existsb_exists in Hls as ([t] & Hin & Heq).
  apply Nat.eqb_eq in Heq as ->. by apply list_elem_of_In.
Qed.

Lemma binding_targets_recorded_sink_witness :
  attach_calls
    (deliver
       (run constructor
          [MEDIA_ATTACHED (MediaElement 0);
           MEDIA_ATTACHED (MediaElement 1);
           MANIFEST_PARSED Store.two_levels;
           AccessResolved 0 (AccessHandle 0);
           MediaKeysResolved 0 (MediaKeysHandle 0)])
       (Encrypted (MediaElement 0)))
  = [Host (setMediaKeys (MediaElement 1) (Some (MediaKeysHandle 0)))].
Proof.
  apply (binding_targets_recorded_sink
           (run constructor
              [MEDIA_ATTACHED (MediaElement 0);
               MEDIA_ATTACHED (MediaElement 1);
               MANIFEST_PARSED Store.two_levels;
               AccessResolved 0 (AccessHandle 0);
               MediaKeysResolved 0 (MediaKeysHandle 0)])
           0 (MediaElement 1)
           {| mediaKeys := Some (MediaKeysHandle 0);
              mediaKeysSession := Some (SessionHandle (MediaKeysHandle 0) 0);
              mediaKeySystemAccess := AccessHandle 0 |});
    reflexivity.
Defined.

(** Over a history from the constructor in which no capability-access
    request succeeds, the Store stays empty, module creation is never
    requested, and no ['encrypted'] notification, however many arrive,
    attaches anything or sets the flag. *)
Theorem nothing_bound_without_access (evs : list Event) :
  forallb (fun ev => negb (Binding.is_access_resolved ev)) evs = true ->
  store (run constructor evs) = []
  /\ keysRequests (run constructor evs) = []
  /\ _hasSetMediaKeys (eme (run constructor evs)) = false
  /\ attach_calls (run constructor evs) = [].
Proof.
  assert (Hgen : forall w,
    forallb (fun ev => negb (Binding.is_access_resolved ev)) evs = true ->
    store w = [] -> keysRequests w = [] -> _hasSetMediaKeys (eme w) = false ->
    store (run w evs) = []
    /\ keysRequests (run w evs) = []
    /\ _hasSetMediaKeys (eme (run w evs)) = false
    /\ attach_calls (run w evs) = attach_calls w).
  { induction evs as [|ev evs IH]; intros w Hevs Hs Hk Hf; [done|].
    simpl in Hevs. apply andb_true_iff in Hevs as [Hev Hevs].
    change (run w (ev :: evs)) with (run (deliver w ev) evs).
    destruct (Binding.deliver_no_access w ev) as (Hs1 & Hk1 & Hf1 & Hc1);
      try done; [by destruct (Binding.is_access_resolved ev)|].
    destruct (IH (deliver w ev) Hevs Hs1 Hk1 Hf1) as (Hs2 & Hk2 & Hf2 & Hc2).
    repeat split; congruence. }
  intros Hevs. by apply (Hgen constructor).
Qed.

Lemma nothing_bound_without_access_witness :
  attach_calls
    (run constructor
       [MEDIA_ATTACHED (MediaElement 0);
        MANIFEST_PARSED Store.two_levels;
        AccessRejected 0 (Error "NotSupportedError");
        Encrypted (MediaElement 0);
        Encrypted (MediaElement 0)])
  = [].
Proof.
  apply (nothing_bound_without_access
           [MEDIA_ATTACHED (MediaElement 0);
            MANIFEST_PARSED Store.two_levels;
            AccessRejected 0 (Error "NotSupportedError");
            Encrypted (MediaElement 0);
            Encrypted (MediaElement 0)]).
  reflexivity.
Defined.

(** The state in which the [then] callback of the only entry's
    [createMediaKeys] promise calls [this._onMediaKeysCreated()]. *)
Definition only_module_created : World :=
  ((assign (set_mediaKeysList
              (alter (set_item_mediaKeys (Some (MediaKeysHandle 0))) 0));;;
    console Log [VString "Created media-keys:";
                 VMediaKeys (MediaKeysHandle 0)])
     (with_keysRequests (settle 0 Fulfilled) Binder.access_without_module)).2.

(** When every entry without a session has a module, the session pass
    completes normally; it creates a session, from the entry's module and
    with the next serial of the host, exactly on the entries that had a
    module and no session, in Store order, and leaves every other entry as
    it was. *)
Theorem pass_creates_missing_sessions (w : World) :
  forallb Sessions.processable (store w) = true ->
  (_onMediaKeysCreated w).1 = Normal tt
  /\ store (_onMediaKeysCreated w).2
     = (Sessions.ensureSessions_spec (store w) (sessionsCreated w)).1
  /\ sessionsCreated (_onMediaKeysCreated w).2
     = (Sessions.ensureSessions_spec (store w) (sessionsCreated w)).2.
Proof.
  intros Hall. rewrite Sessions.onMediaKeysCreated_pass.
  destruct (Sessions.pass_items_processable _ (sessionsCreated w) Hall)
    as [effects ->].
  by unfold Sessions.after_pass, store.
Qed.

Lemma pass_creates_missing_sessions_witness :
  forallb Sessions.processable (store only_module_created) = true
  /\ store (_onMediaKeysCreated only_module_created).2
     = [{| mediaKeys := Some (MediaKeysHandle 0);
           mediaKeysSession := Some (SessionHandle (MediaKeysHandle 0) 0);
           mediaKeySystemAccess := AccessHandle 0 |}].
Proof.
  split; [reflexivity|].
  apply (pass_creates_missing_sessions only_module_created).
  reflexivity.
Defined.

(** In every state, a second run of the session pass right after a first
    one changes nothing, creates no session and makes no host call, and
    completes as the first run did: normally if it did, with the same
    [TypeError] if it threw. *)
Theorem pass_twice_as_once (w : World) :
  (_onMediaKeysCreated (_onMediaKeysCreated w).2).2 = (_onMediaKeysCreated w).2
  /\ (_onMediaKeysCreated (_onMediaKeysCreated w).2).1
     = (_onMediaKeysCreated w).1.
Proof. by rewrite Sessions.onMediaKeysCreated_again. Qed.

(** In every state, whether it completes or throws, the session pass
    changes nothing but sessions: every entry keeps its module and its
    access handle, and its session is as before or, where there was none,
    one created from that entry's module; the number of entries, the flag,
    the sink, the promises, the listeners and the attach calls are
    untouched. *)
Theorem pass_changes_sessions_only (w : World) :
  Forall2 Pass.item_after (store w) (store (_onMediaKeysCreated w).2)
  /\ Frame.preserved w (_onMediaKeysCreated w).2.
Proof.
  split; [|apply Frame.onMediaKeysCreated_preserved].
  rewrite Sessions.onMediaKeysCreated_pass.
  pose proof (Pass.pass_items_after (store w) (sessionsCreated w)) as Hafter.
  destruct (Sessions.pass_items (store w) (sessionsCreated w))
    as [[[items2 serial2] effects] c].
  by unfold Sessions.after_pass, store.
Qed.

Lemma append_dquote_inj (s1 s2 : string) :
  s1 +:+ dquote = s2 +:+ dquote -> s1 = s2.
Proof.
  revert s2. induction s1 as [|a s1 IH]; intros [|b s2] H; simpl in H.
  - done.
  - injection H as _ H. by destruct s2.
  - injection H as _ H. by destruct s1.
  - injection H as -> H. f_equal. by apply IH.
Qed.

(** The configuration built for the key-system determines the requested
    video codecs: two requests yield the same candidate sequence only if
    their video codec lists are equal, element by element and in order. *)
Theorem configuration_determines_codecs
    (audioCodecs1 audioCodecs2 videoCodecs1 videoCodecs2 : list string)
    (drmOptions1 drmOptions2 : option DrmOptions) :
  createWidevineMediaKeySystemConfigurations
    audioCodecs1 videoCodecs1 drmOptions1
  = createWidevineMediaKeySystemConfigurations
      audioCodecs2 videoCodecs2 drmOptions2 ->
  videoCodecs1 = videoCodecs2.
Proof.
  rewrite !Catalog.createWidevine_eq. intros H. injection H as H.
  revert videoCodecs2 H.
  induction videoCodecs1 as [|c1 v1 IH]; intros [|c2 v2] H; try done.
  cbn [map] in H. unfold Catalog.capability_of at 1 3 in H.
  injection H as Hc H.
  f_equal; [apply append_dquote_inj; exact Hc|by apply IH].
Qed.

Lemma configuration_determines_codecs_witness :
  ["avc1.4d401f"; "avc1.64001f"] = ["avc1.4d401f"; "avc1.64001f"].
Proof.
  apply (configuration_determines_codecs
           ["mp4a.40.2"] [] ["avc1.4d401f"; "avc1.64001f"]
           ["avc1.4d401f"; "avc1.64001f"] None None).
  reflexivity.
Defined.

Lemma encrypted_single_listener (w : World) (id : nat) :
  encryptedListeners w = [MediaElement id] ->
  deliver w (Encrypted (MediaElement id)) = run_callback _onMediaEncrypted w.
Proof.
  intros Hls. simpl. rewrite Hls. simpl. by rewrite Nat.eqb_refl.
Qed.

Definition host_call (e : Effect) : bool :=
  match e with
  | Host _ => true
  | _ => false
  end.

(** The whole negotiation, for every sink, manifest, access handle and
    module: after media-attached, manifest-parsed, the access request
    granted, the module created and one ['encrypted'] notification, the
    Store holds one entry with that handle, that module and a session
    created from it, the module is attached to the sink and the flag is
    set; the host calls were made in the order listener registration,
    access request, configuration read, module creation, session creation,
    attachment, each once. *)
Theorem negotiation_to_binding
    (media : HTMLMediaElement) (levels : list Level)
    (access : MediaKeySystemAccess) (keys : MediaKeys) :
  store (run constructor
           [MEDIA_ATTACHED media; MANIFEST_PARSED levels;
            AccessResolved 0 access; MediaKeysResolved 0 keys;
            Encrypted media])
  = [{| mediaKeys := Some keys;
        mediaKeysSession := Some (SessionHandle keys 0);
        mediaKeySystemAccess := access |}]
  /\ _hasSetMediaKeys
       (eme (run constructor
               [MEDIA_ATTACHED media; MANIFEST_PARSED levels;
                AccessResolved 0 access; MediaKeysResolved 0 keys;
                Encrypted media]))
     = true
  /\ List.filter host_call
       (trace (run constructor
                 [MEDIA_ATTACHED media; MANIFEST_PARSED levels;
                  AccessResolved 0 access; MediaKeysResolved 0 keys;
                  Encrypted media]))
     = [Host (addEventListener media "encrypted");
        Host (requestMediaKeySystemAccess KeySystems.WIDEVINE
                [Catalog.widevine_config (map videoCodec levels)]);
        Host (getConfiguration access);
        Host (createMediaKeys access);
        Host (createSession keys);
        Host (setMediaKeys media (Some keys))].
Proof.
  destruct media as [id].
  unfold run. cbn [fold_left].
  rewrite (encrypted_single_listener _ id) by reflexivity.
  rewrite Steps.onMediaEncrypted_run.
  rewrite <- (Catalog.createWidevine_eq (map audioCodec levels) _ None).
  split; [reflexivity|]. split; [reflexivity|].
  vm_compute. reflexivity.
Qed.

(** The sinks of the media-attached events of a history, oldest first. *)
Definition attached_media (evs : list Event) : list HTMLMediaElement :=
  flat_map (fun ev => match ev with
                      | MEDIA_ATTACHED media => [media]
                      | _ => []
                      end) evs.

Lemma fire_encrypted_sink
    (media : HTMLMediaElement) (listeners : list HTMLMediaElement) (w : World) :
  encryptedListeners (fire_encrypted media listeners w) = encryptedListeners w
  /\ _media (eme (fire_encrypted media listeners w)) = _media (eme w).
Proof.
  revert w. induction listeners as [|[target] rest IH]; intros w; [done|].
  simpl. destruct media as [id]. destruct (Nat.eqb id target); [|apply IH].
  destruct (IH (run_callback _onMediaEncrypted w)) as [-> ->].
  by rewrite Steps.onMediaEncrypted_run.
Qed.

Lemma deliver_sink (w : World) (ev : Event) :
  encryptedListeners (deliver w ev)
  = encryptedListeners w ++ attached_media [ev]
  /\ _media (eme (deliver w ev))
     = match ev with
       | MEDIA_ATTACHED media => Some media
       | _ => _media (eme w)
       end.
Proof.
  destruct ev as [|media|levels|data|p access|p err|p keys|p err|media]; simpl;
    rewrite ?app_nil_r; try done;
    try (by destruct (accessRequests w !! p) as [[keySystem []]|]).
  - destruct (keysRequests w !! p) as [[item []]|]; try done.
    destruct (Frame.keys_fulfilled_preserved item keys
                (with_keysRequests (settle p Fulfilled) w))
      as (_&_&Hls&Hmedia&_).
    by rewrite Hls, Hmedia.
  - by destruct (keysRequests w !! p) as [[item []]|].
  - apply fire_encrypted_sink.
Qed.

(** Over every history from the constructor: one ['encrypted'] listener is
    registered per media-attached event and none is ever removed, and
    [this._media] is the sink of the last media-attached event (null before
    the first). *)
Theorem listeners_accumulate (evs : list Event) :
  encryptedListeners (run constructor evs) = attached_media evs
  /\ _media (eme (run constructor evs)) = last (attached_media evs).
Proof.
  assert (Hgen : forall w,
    encryptedListeners (run w evs) = encryptedListeners w ++ attached_media evs
    /\ _media (eme (run w evs))
       = match last (attached_media evs) with
         | Some media => Some media
         | None => _media (eme w)
         end).
  { induction evs as [|ev evs IH]; intros w.
    - simpl. by rewrite app_nil_r.
    - change (run w (ev :: evs)) with (run (deliver w ev) evs).
      destruct (IH (deliver w ev)) as [-> ->].
      destruct (deliver_sink w ev) as [-> ->].
      replace (attached_media (ev :: evs))
        with (attached_media [ev] ++ attached_media evs)
        by (unfold attached_media; simpl; by rewrite app_nil_r).
      split; [by rewrite <- app_assoc|].
      destruct (attached_media evs) as [|m ms] eqn:Hrest using rev_ind.
      + rewrite app_nil_r. simpl. by destruct ev.
      + rewrite app_assoc, !last_snoc. done. }
  destruct (Hgen constructor) as [-> ->]. split; [done|].
  by destruct (last (attached_media evs)).
Qed.

End Guarantees.
